(** * SpriteVisu: contact generation from SPRITE cluster files

    A shallow embedding of [HeatmapMultiVisu.py] (class [SpriteVisu]) and of
    the driver [main_mv.py], with the properties of the contact generator,
    the contact store and the output files.

    Conventions.
    - Python [str] is [string]; the comparison [chrom1 > chrom2] is the
      lexicographic order [String.ltb].
    - Python [int] is [Z]; [f"{n}"] is stdpp's decimal [pretty].
    - [self._contact_lists] (a [defaultdict(list)]) is a
      [gmap string (list string)]; a missing key reads as the empty list.
    - [bins] (a [defaultdict(set)]) is an association list in insertion
      order, as Python dictionaries iterate; each bin is the sequence of
      [add] calls made on the set, and the order in which CPython iterates
      over the resulting set is a field of the class [Runtime].
    - A raised Python exception is the [Raise] outcome of a small
      state-and-error monad. *)

From Stdlib Require Import ZArith Ascii String List Permutation Lia.
From stdpp Require Import list gmap strings pretty.

Local Open Scope Z_scope.

(** * Definitions *)

(** ** Python string primitives *)

(** [c in s] for a one-character [c]. *)
Fixpoint has_char (c : ascii) (s : string) : bool :=
  match s with
  | EmptyString => false
  | String a s' => Ascii.eqb a c || has_char c s'
  end.

(** [s.split(sep)] for a one-character separator: every occurrence
    splits, and the result is never empty. *)
Fixpoint split_char (sep : ascii) (s : string) : list string :=
  match s with
  | EmptyString => [EmptyString]
  | String a s' =>
      if Ascii.eqb a sep then EmptyString :: split_char sep s'
      else match split_char sep s' with
           | [] => [String a EmptyString]
           | p :: ps => String a p :: ps
           end
  end.

(** [s.split(sep, 1)], when it has two parts: the split is at the first
    occurrence of [sep]. [None] stands for the one-element result. *)
Fixpoint split_once (sep : ascii) (s : string) : option (string * string) :=
  match s with
  | EmptyString => None
  | String a s' =>
      if Ascii.eqb a sep then Some (EmptyString, s')
      else match split_once sep s' with
           | Some (l, r) => Some (String a l, r)
           | None => None
           end
  end.

(** [s.rsplit(sep, 1)], when it has two parts: the split is at the last
    occurrence of [sep]. [None] stands for the one-element result. *)
Fixpoint rsplit_once (sep : ascii) (s : string) : option (string * string) :=
  match s with
  | EmptyString => None
  | String a s' =>
      match rsplit_once sep s' with
      | Some (l, r) => Some (String a l, r)
      | None => if Ascii.eqb a sep then Some (EmptyString, s') else None
      end
  end.

(** ** Values, exceptions and the state of a run *)

(** What [json.load] returns. An object keeps its members as Python's
    [dict] does: one entry per key, in insertion order. *)
#[warnings="-register-all"]
Inductive json : Type :=
| JNull
| JBool (b : bool)
| JInt (n : Z)
| JFloat (repr : string)
| JStr (s : string)
| JArr (items : list json)
| JObj (members : list (string * json)).

(** The exceptions the program can raise. *)
Inductive exn : Type :=
| OSError            (* [open] on a path that cannot be read *)
| JSONDecodeError    (* [json.load] on a malformed document *)
| KeyError           (* a missing [dict] key *)
| TypeError          (* subscripting a value that is not a [dict] by a [str] *)
| AttributeError     (* [.keys()] on a value that is not a [dict] *)
| IndexError         (* [data_split[0]] on an empty list *)
| ValueError.        (* a failed unpacking or [int()] *)

Inductive result (A : Type) : Type :=
| Ok (a : A)
| Raise (e : exn).
Arguments Ok {A} a.
Arguments Raise {A} e.

(** A row handed to [cur.execute("INSERT INTO contacts ...")]; [start] and
    [end] are passed as the substrings of the read, not as integers. *)
Inductive row : Type :=
| Row4 (chromosome start end_ cluster_id : string)
| Row3 (chromosome start cluster_id : string).

(** Everything a run mutates: the contact store of the object and what it
    leaves in the output directory. File names are relative to the output
    directory ([os.path.join(output, name)]). *)
Record state : Type := mkState {
  contact_lists : gmap string (list string);  (* [self._contact_lists] *)
  dirs_made : list string;                    (* [os.makedirs] *)
  meta_json : option json;                    (* [meta.json] *)
  db_file : option string;                    (* database holding table [contacts] *)
  db_rows : list row;                         (* rows inserted on the cursor *)
  db_committed : bool;                        (* [conn.commit()] reached *)
  contact_files : gmap string string          (* per-pair files: name to content *)
}.

Definition initial_state : state :=
  mkState ∅ [] None None [] false ∅.

Definition set_contact_lists (f : gmap string (list string) → gmap string (list string))
    (s : state) : state :=
  mkState (f (contact_lists s)) (dirs_made s) (meta_json s) (db_file s)
          (db_rows s) (db_committed s) (contact_files s).

Definition M (A : Type) : Type := state → result A * state.

Definition ret {A} (a : A) : M A := λ s, (Ok a, s).

Definition bind {A B} (m : M A) (k : A → M B) : M B :=
  λ s, match m s with
       | (Ok a, s') => k a s'
       | (Raise e, s') => (Raise e, s')
       end.

Definition raise {A} (e : exn) : M A := λ s, (Raise e, s).

Definition modify (f : state → state) : M unit := λ s, (Ok tt, f s).

Declare Scope py_scope.
Delimit Scope py_scope with py.
Notation "x <- m ;; k" := (bind m (λ x, k))
  (at level 100, m at next level, right associativity) : py_scope.
Notation "m ;;; k" := (bind m (λ _, k))
  (at level 100, right associativity) : py_scope.

(** A [for] loop whose body may raise: the first exception ends it. *)
Fixpoint for_each {A} (body : A → M unit) (l : list A) : M unit :=
  match l with
  | [] => ret tt
  | x :: l' => bind (body x) (λ _, for_each body l')
  end.

(** A [for] loop that also threads a local variable. *)
Fixpoint fold_m {A B} (body : B → A → M B) (b : B) (l : list A) : M B :=
  match l with
  | [] => ret b
  | x :: l' => bind (body b x) (λ b', fold_m body b' l')
  end.

(** ** The object *)

(** The attributes that [__init__] sets and nothing changes afterwards.
    [_contact_lists], the one attribute that is mutated, is the field
    [contact_lists] of the state. *)
Record SpriteVisu : Type := mkSpriteVisu {
  _cluster_file : string;
  _max_cluster_size : Z;
  _min_cluster_size : Z;
  _start_only : bool;
  _genomic_sizes : json;
  _chromosome_list : list string   (* the keys of ["chromosomes"] *)
}.

(** [d[key]] on a loaded JSON value. *)
Fixpoint dict_get (key : string) (members : list (string * json)) : option json :=
  match members with
  | [] => None
  | (k, v) :: rest => if decide (k = key) then Some v else dict_get key rest
  end.

Definition getitem (v : json) (key : string) : result json :=
  match v with
  | JObj members =>
      match dict_get key members with
      | Some x => Ok x
      | None => Raise KeyError
      end
  | _ => Raise TypeError
  end.

(** [v.keys()]. *)
Definition keys (v : json) : result (list string) :=
  match v with
  | JObj members => Ok (fst <$> members)
  | _ => Raise AttributeError
  end.

(** [chrom in self._chromosome_list]. *)
Definition known (self : SpriteVisu) (chrom : string) : bool :=
  bool_decide (chrom ∈ _chromosome_list self).

(** ** The contact store *)

(** The separator of ["\n".join(contacts)]. *)
Definition newline : string := String (ascii_of_nat 10) EmptyString.

Definition contact_key (chrom1 chrom2 : string) : string :=
  chrom1 +:+ "-" +:+ chrom2.

Definition contact_line (start1 start2 inc2 : Z) : string :=
  pretty start1 +:+ "," +:+ pretty start2 +:+ "," +:+ pretty inc2.

(** [self._contact_lists[key].append(line)] on a [defaultdict(list)]. *)
Definition store_append (key line : string) (cl : gmap string (list string))
    : gmap string (list string) :=
  <[key := (cl !!! key) ++ [line]]> cl.

(** [SpriteVisu.add_contact_to_list], as a function of the store it
    mutates. [cluster_id] and [inc1] are received and not used. *)
Definition add_contact_to_list (self : SpriteVisu) (cluster_id : string)
    (chrom1 : string) (start1 : Z) (chrom2 : string) (start2 : Z)
    (inc1 inc2 : Z) (cl : gmap string (list string)) : gmap string (list string) :=
  if negb (known self chrom1) || negb (known self chrom2) then cl
  else
    let '(chrom1, chrom2, start1, start2) :=
      if String.ltb chrom2 chrom1 then (chrom2, chrom1, start2, start1)
      else (chrom1, chrom2, start1, start2) in
    store_append (contact_key chrom1 chrom2) (contact_line start1 start2 inc2) cl.

(** ** Reads and bins *)

(** Full mode, [<readname>_<chrom>:<start>-<end>]: the three unpackings of
    [generate_hsv]. [None] is the [ValueError] of an unpacking that does not
    find exactly two parts. *)
Definition parse_full (read : string) : option (string * string * string) :=
  match rsplit_once "_" read with
  | None => None
  | Some (_, coord) =>
      match split_char ":" coord with
      | [chrom; position] =>
          match split_char "-" position with
          | [start; end_] => Some (chrom, start, end_)
          | _ => None
          end
      | _ => None
      end
  end.

(** Start-only mode, [<chrom>:<start>]: [read.split(':', 1)]. *)
Definition parse_start_only (read : string) : option (string * string) :=
  split_once ":" read.

(** [bins[chrom].add(i)] on a [defaultdict(set)]: a new chromosome goes to
    the end, a known one keeps its place. A bin is the sequence of values
    added to its set. *)
Fixpoint bins_add (chrom : string) (i : Z) (bins : list (string * list Z))
    : list (string * list Z) :=
  match bins with
  | [] => [(chrom, [i])]
  | (c, h) :: rest =>
      if decide (c = chrom) then (c, h ++ [i]) :: rest
      else (c, h) :: bins_add chrom i rest
  end.

(** [bins[chrom]]. *)
Fixpoint bins_get (chrom : string) (bins : list (string * list Z)) : list Z :=
  match bins with
  | [] => []
  | (c, h) :: rest => if decide (c = chrom) then h else bins_get chrom rest
  end.

(** [itertools.combinations(l, 2)], also the index pairs [i < j] of the
    interchromosomal double loop. *)
Fixpoint combinations2 {A} (l : list A) : list (A * A) :=
  match l with
  | [] => []
  | x :: t => (pair x <$> t) ++ combinations2 t
  end.

(** The arguments of one call of [add_contact_to_list]. *)
Record contact : Type := mkContact {
  c_chrom1 : string; c_start1 : Z;
  c_chrom2 : string; c_start2 : Z;
  c_inc1 : Z; c_inc2 : Z
}.

Definition emit (self : SpriteVisu) (cluster_id : string)
    (cl : gmap string (list string)) (c : contact) : gmap string (list string) :=
  add_contact_to_list self cluster_id (c_chrom1 c) (c_start1 c)
    (c_chrom2 c) (c_start2 c) (c_inc1 c) (c_inc2 c) cl.

(** What the environment supplies: the files that can be opened, with the
    text of each and, for a cluster file, the [line.split()] of each of its
    lines. *)
Record world : Type := mkWorld {
  file_text : string → option string;
  file_lines : string → option (list (list string))
}.

(** The command line of [main_mv.py], as [parse_arguments] returns it. *)
Record arguments : Type := mkArguments {
  clusters : string;
  genomic_size : string;
  heatmap_spritevisu_output : string;
  max_cluster_size : Z;
  min_cluster_size : Z;
  start_only : bool
}.

(** ** The Python runtime *)

(** What the interpreter supplies and the program does not define: the
    order in which CPython iterates over the set obtained by adding the
    given values one after the other; [int(s)], with [None] for its
    [ValueError]; [json.load] on the text of a file, with [None] for its
    [JSONDecodeError]. *)
Class Runtime : Type := {
  set_iter : list Z → list Z;
  py_int : string → option Z;
  json_load : string → option json
}.

(** Iterating over a set enumerates it, each element once. *)
Class RuntimeLaws {rt : Runtime} : Prop := {
  set_iter_perm : ∀ h, set_iter h ≡ₚ elements (list_to_set h : gset Z)
}.

Section Run.

Context {rt : Runtime}.

(** [len(bin_set)]. *)
Definition set_len (h : list Z) : Z := Z.of_nat (length (set_iter h)).

(** *** [SpriteVisu.__init__] *)

Definition SpriteVisu_init (w : world) (cluster_file genomic_size_file : string)
    (max_cluster min_cluster : Z) (start_only : bool) : result SpriteVisu :=
  match file_text w genomic_size_file with
  | None => Raise OSError
  | Some text =>
      match json_load text with
      | None => Raise JSONDecodeError
      | Some sizes =>
          match getitem sizes "chromosomes" with
          | Raise e => Raise e
          | Ok chroms =>
              match keys chroms with
              | Raise e => Raise e
              | Ok names =>
                  Ok (mkSpriteVisu cluster_file max_cluster min_cluster
                        start_only sizes names)
              end
          end
      end
  end.

(** *** [SpriteVisu.generate_hsv] *)

Definition db_name (self : SpriteVisu) : string :=
  if _start_only self then "cluster_id_reads-startonly.db"
  else "cluster_id_reads.db".

Definition makedirs (output : string) : M unit :=
  modify (λ s, mkState (contact_lists s) (dirs_made s ++ [output]) (meta_json s)
                 (db_file s) (db_rows s) (db_committed s) (contact_files s)).

Definition save_meta (self : SpriteVisu) : M unit :=
  modify (λ s, mkState (contact_lists s) (dirs_made s) (Some (_genomic_sizes self))
                 (db_file s) (db_rows s) (db_committed s) (contact_files s)).

Definition create_table (self : SpriteVisu) : M unit :=
  modify (λ s, mkState (contact_lists s) (dirs_made s) (meta_json s)
                 (Some (db_name self)) (db_rows s) (db_committed s) (contact_files s)).

Definition push_row (s : state) (r : row) : state :=
  mkState (contact_lists s) (dirs_made s) (meta_json s)
          (db_file s) (db_rows s ++ [r]) (db_committed s) (contact_files s).

Definition insert_row (r : row) : M unit := modify (λ s, push_row s r).

Definition commit : M unit :=
  modify (λ s, mkState (contact_lists s) (dirs_made s) (meta_json s)
                 (db_file s) (db_rows s) true (contact_files s)).

(** The body of [for read in reads]. *)
Definition process_read (self : SpriteVisu) (cluster_id : string)
    (bins : list (string * list Z)) (read : string) : M (list (string * list Z)) :=
  if negb (_start_only self) then
    match parse_full read with
    | None => raise ValueError
    | Some (chrom, start, end_) =>
        match py_int start with
        | None => raise ValueError
        | Some i =>
            let bins := bins_add chrom i bins in
            (insert_row (Row4 chrom start end_ cluster_id) ;;; ret bins)%py
        end
    end
  else
    match parse_start_only read with
    | None => raise ValueError
    | Some (chrom, start) =>
        match py_int start with
        | None => raise ValueError
        | Some i =>
            let bins := bins_add chrom i bins in
            (insert_row (Row3 chrom start cluster_id) ;;; ret bins)%py
        end
    end.

(** The body of [for chrom, bin_set in bins.items()]. *)
Definition intra_chrom (self : SpriteVisu) (cluster_id : string) (reads_len : Z)
    (cl : gmap string (list string)) (item : string * list Z)
    : gmap string (list string) :=
  let '(chrom, bin_set) := item in
  let inc1 := set_len bin_set in
  if 1 <? inc1 then
    foldl (λ cl '(start1, start2),
             let inc2 := set_len bin_set in
             add_contact_to_list self cluster_id chrom start1 chrom start2
               reads_len inc2 cl)
          cl (combinations2 (set_iter bin_set))
  else cl.

Definition intra_pass (self : SpriteVisu) (cluster_id : string) (reads_len : Z)
    (bins : list (string * list Z)) (cl : gmap string (list string))
    : gmap string (list string) :=
  foldl (intra_chrom self cluster_id reads_len) cl bins.

(** The body of the double loop over [i < j]. *)
Definition inter_pair (self : SpriteVisu) (cluster_id : string) (reads_len : Z)
    (bins : list (string * list Z)) (cl : gmap string (list string))
    (pair : string * string) : gmap string (list string) :=
  let '(chrom1, chrom2) := pair in
  let bin_set1 := bins_get chrom1 bins in
  let bin_set2 := bins_get chrom2 bins in
  let inc1 := set_len bin_set1 + set_len bin_set2 in
  let inc2 := inc1 in
  foldl (λ cl start1,
           foldl (λ cl start2,
                    add_contact_to_list self cluster_id chrom1 start1 chrom2 start2
                      reads_len inc2 cl)
                 cl (set_iter bin_set2))
        cl (set_iter bin_set1).

Definition inter_pass (self : SpriteVisu) (cluster_id : string) (reads_len : Z)
    (bins : list (string * list Z)) (cl : gmap string (list string))
    : gmap string (list string) :=
  if (1 <? length bins)%nat then
    let chrom_list := fst <$> bins in
    foldl (inter_pair self cluster_id reads_len bins) cl (combinations2 chrom_list)
  else cl.

(** [min <= reads_len <= max]. *)
Definition in_bounds (self : SpriteVisu) (reads_len : Z) : bool :=
  (_min_cluster_size self <=? reads_len) && (reads_len <=? _max_cluster_size self).

(** The body of [for line in file], on [data_split = line.split()]. A
    blank line has no first token. The read count printed for a skipped
    cluster goes to the standard output, which the state does not hold. *)
Definition process_line (self : SpriteVisu) (data_split : list string) : M unit :=
  match data_split with
  | [] => raise IndexError
  | cluster_id :: reads =>
      let reads_len := Z.of_nat (length reads) in
      if negb (in_bounds self reads_len) then ret tt
      else
        (bins <- fold_m (process_read self cluster_id) [] reads ;;
         modify (set_contact_lists (λ cl,
           inter_pass self cluster_id reads_len bins
             (intra_pass self cluster_id reads_len bins cl))))%py
  end.

(** [SpriteVisu.write_contact_files]: one file per key of the store,
    replacing a file of that name. The output directory exists by then,
    and each [open] is taken to succeed: a key that names no file in that
    directory (a chromosome name holding [/]) makes the code raise at its
    [open], with the files of the keys before it written and nothing
    committed. The state has no such outcome: what is stated of this step
    is stated of the runs that return. *)
Definition file_name (key : string) : string := key +:+ ".txt".

Definition write_contact_files : M unit :=
  modify (λ s, mkState (contact_lists s) (dirs_made s) (meta_json s)
                 (db_file s) (db_rows s) (db_committed s)
                 (kmap file_name (String.concat newline <$> contact_lists s)
                    ∪ contact_files s)).

Definition open_cluster_file (self : SpriteVisu) (w : world) : M (list (list string)) :=
  match file_lines w (_cluster_file self) with
  | None => raise OSError
  | Some lines => ret lines
  end.

Definition generate_hsv (self : SpriteVisu) (w : world) (output : string) : M unit :=
  (makedirs output ;;;
   save_meta self ;;;
   create_table self ;;;
   lines <- open_cluster_file self w ;;
   for_each (process_line self) lines ;;;
   write_contact_files ;;;
   commit)%py.

(** *** [main] of [main_mv.py] *)

Definition main (args : arguments) (w : world) : result unit * state :=
  match SpriteVisu_init w (clusters args) (genomic_size args)
          (max_cluster_size args) (min_cluster_size args) (start_only args) with
  | Raise e => (Raise e, initial_state)
  | Ok sprite_visu =>
      generate_hsv sprite_visu w (heatmap_spritevisu_output args) initial_state
  end.

(** ** The notions the properties are stated with *)

(** A line of an output file: [start1,start2,weight]. *)
Definition is_line (l : string) : Prop :=
  ∃ start1 start2 inc2 : Z, l = contact_line start1 start2 inc2.

(** What holds of every store the program builds: a key is the name of
    two recognised chromosomes in lexicographic order and holds at least
    one line. *)
Definition store_inv (self : SpriteVisu) (cl : gmap string (list string)) : Prop :=
  ∀ key lines, cl !! key = Some lines →
    lines ≠ [] ∧ Forall is_line lines ∧
    ∃ chrom1 chrom2, key = contact_key chrom1 chrom2 ∧
      chrom1 ∈ _chromosome_list self ∧ chrom2 ∈ _chromosome_list self ∧
      String.leb chrom1 chrom2 = true.

(** The calls of [add_contact_to_list] made for one chromosome by the
    intrachromosomal loop, in order. *)
Definition intra_of (reads_len : Z) (item : string * list Z) : list contact :=
  if 1 <? set_len item.2 then
    (λ p, mkContact item.1 p.1 item.1 p.2 reads_len (set_len item.2))
      <$> combinations2 (set_iter item.2)
  else [].

Definition intra_contacts (reads_len : Z) (bins : list (string * list Z))
    : list contact :=
  bins ≫= intra_of reads_len.

(** The calls made for one pair of chromosomes by the interchromosomal
    loop, in order. *)
Definition inter_of (reads_len : Z) (bins : list (string * list Z))
    (pair : string * string) : list contact :=
  set_iter (bins_get pair.1 bins) ≫= λ start1,
    (λ start2, mkContact pair.1 start1 pair.2 start2 reads_len
                 (set_len (bins_get pair.1 bins) + set_len (bins_get pair.2 bins)))
      <$> set_iter (bins_get pair.2 bins).

Definition inter_contacts (reads_len : Z) (bins : list (string * list Z))
    : list contact :=
  if (1 <? length bins)%nat then combinations2 (fst <$> bins) ≫= inter_of reads_len bins
  else [].

(** What one read contributes: its chromosome, its start as an integer
    and the row inserted for it. [None] when [process_read] raises. *)
Definition parsed (self : SpriteVisu) (cluster_id read : string)
    : option (string * Z * row) :=
  if negb (_start_only self) then
    match parse_full read with
    | None => None
    | Some (chrom, start, end_) =>
        match py_int start with
        | None => None
        | Some i => Some (chrom, i, Row4 chrom start end_ cluster_id)
        end
    end
  else
    match parse_start_only read with
    | None => None
    | Some (chrom, start) =>
        match py_int start with
        | None => None
        | Some i => Some (chrom, i, Row3 chrom start cluster_id)
        end
    end.

Definition add_parsed (bins : list (string * list Z)) (p : string * Z * row)
    : list (string * list Z) :=
  bins_add p.1.1 p.1.2 bins.

Definition push_parsed (s : state) (p : string * Z * row) : state :=
  push_row s p.2.

(** The bins of a cluster, as the loop over its reads leaves them. *)
Definition cluster_bins (ps : list (string * Z * row)) : list (string * list Z) :=
  foldl add_parsed [] ps.

(** Every call of [add_contact_to_list] made for a cluster, in order. *)
Definition cluster_contacts (reads_len : Z) (bins : list (string * list Z))
    : list contact :=
  intra_contacts reads_len bins ++ inter_contacts reads_len bins.

(** [data_split[1:]]. *)
Definition reads_of (data_split : list string) : list string := tail data_split.

(** The reads of all clusters, and the reads of the clusters whose read
    count is within the bounds. *)
Definition all_reads (lines : list (list string)) : nat :=
  sum_list_with (λ line, length (reads_of line)) lines.

Definition bounded_reads (self : SpriteVisu) (lines : list (list string)) : nat :=
  sum_list_with (λ line, if in_bounds self (Z.of_nat (length (reads_of line)))
                         then length (reads_of line) else 0%nat) lines.

Definition is_row4 (r : row) : Prop :=
  ∃ chrom start end_ cid, r = Row4 chrom start end_ cid.

(** The content of the output directory's contact files for a store. *)
Definition files_of (cl : gmap string (list string)) : gmap string string :=
  kmap file_name (String.concat newline <$> cl).

(** The state after the set-up steps of [generate_hsv] and after its
    last two steps. *)
Definition prepared (self : SpriteVisu) (output : string) (s : state) : state :=
  mkState (contact_lists s) (dirs_made s ++ [output]) (Some (_genomic_sizes self))
          (Some (db_name self)) (db_rows s) (db_committed s) (contact_files s).

Definition finished (s : state) : state :=
  mkState (contact_lists s) (dirs_made s) (meta_json s) (db_file s) (db_rows s)
          true (files_of (contact_lists s) ∪ contact_files s).

(** The store keeps its invariant and no contact file exists while the
    clusters are processed. *)
Definition run_inv (self : SpriteVisu) (s : state) : Prop :=
  store_inv self (contact_lists s) ∧ contact_files s = ∅ ∧ db_committed s = false.


(** A read that does not have the shape of its mode. Full mode: no
    underscore; or, in the part after the last underscore, no [:] or no
    [-]; or the shape [name_chrom:start-end] with a start that [int]
    rejects. Start-only mode: no [:]; or the shape [chrom:start] with a
    start that [int] rejects. *)
Definition malformed (self : SpriteVisu) (read : string) : Prop :=
  if _start_only self then
    has_char ":" read = false ∨
    ∃ chrom start,
      read = chrom +:+ ":" +:+ start ∧
      has_char ":" chrom = false ∧ py_int start = None
  else
    has_char "_" read = false ∨
    ∃ name coord,
      read = name +:+ "_" +:+ coord ∧ has_char "_" coord = false ∧
      (has_char ":" coord = false ∨
       has_char "-" coord = false ∨
       ∃ chrom start end_,
         coord = chrom +:+ ":" +:+ start +:+ "-" +:+ end_ ∧
         has_char ":" chrom = false ∧
         has_char ":" start = false ∧ has_char ":" end_ = false ∧
         has_char "-" start = false ∧ has_char "-" end_ = false ∧
         py_int start = None).

End Run.

(** ** The MERFISH converter

    [merfish_to_sprite.py] prepares a cluster file in start-only format.
    Its clustering is done by pandas and scikit-learn on floating-point
    coordinates; the part embedded here is the function that turns a
    genomic coordinate into a read. *)

Section Merfish.

Context {rt : Runtime}.

(** [parse_genomic_coord], local to [convert_merfish_to_sprite]. The
    argument is [None] for a missing value ([pd.isna]); the bare [except]
    turns every failed unpacking or [int] into [None]. [//] is the floor
    division. *)
Definition parse_genomic_coord (coord : option string) : option string :=
  match coord with
  | None => None
  | Some coord =>
      match split_char ":" coord with
      | [chrom; pos] =>
          match split_char "-" pos with
          | [start; end_] =>
              match py_int start with
              | None => None
              | Some i =>
                  match py_int end_ with
                  | None => None
                  | Some j =>
                      let mid_point := (i + j) `div` 2 in
                      Some (chrom +:+ ":" +:+ pretty mid_point)
                  end
              end
          | _ => None
          end
      | _ => None
      end
  end.

End Merfish.

(** ** Further notions *)

Section Notions.

Context {rt : Runtime}.

(** What a state keeps when only the store and the rows may change. *)
Definition same_outputs (s s' : state) : Prop :=
  dirs_made s' = dirs_made s ∧ meta_json s' = meta_json s ∧
  db_file s' = db_file s ∧ db_committed s' = db_committed s ∧
  contact_files s' = contact_files s.

(** A line that [process_line] goes through without raising: it has a
    first token and, when its read count is within the bounds, each of its
    reads is one that [process_read] takes. *)
Definition accepted (self : SpriteVisu) (line : list string) : Prop :=
  ∃ cid reads, line = cid :: reads ∧
    (in_bounds self (Z.of_nat (length reads)) = true →
     ∀ read, read ∈ reads → is_Some (parsed self cid read)).

(** The number of (chromosome, position) pairs of a cluster: the sizes of
    its bins, added up. *)
Definition positions (bins : list (string * list Z)) : nat :=
  sum_list_with (λ item, length (set_iter item.2)) bins.

(** The lines of the store all carry a weight between 2 and the maximal
    cluster size. *)
Definition weights_inv (self : SpriteVisu) (cl : gmap string (list string)) : Prop :=
  ∀ key lines, cl !! key = Some lines →
    Forall (λ l, ∃ start1 start2 inc2 : Z,
                   l = contact_line start1 start2 inc2 ∧
                   2 ≤ inc2 ≤ _max_cluster_size self) lines.


End Notions.

(** ** A concrete runtime and sample inputs *)

(** One enumeration of a set: its elements in the order of their first
  insertion. *)
Definition insertion_order (h : list Z) : list Z := remove_dups h.

(** [int] on ASCII decimal numerals: an optional sign, then digits, with
  single underscores allowed between digits. *)
Definition digit_value (a : ascii) : option Z :=
let n := Z.of_nat (nat_of_ascii a) in
if (48 <=? n) && (n <=? 57) then Some (n - 48) else None.

Fixpoint digits (acc : Z) (after_digit : bool) (s : string) : option Z :=
match s with
| EmptyString => if after_digit then Some acc else None
| String a s' =>
    match digit_value a with
    | Some d => digits (10 * acc + d) true s'
    | None => if Ascii.eqb a "_" && after_digit then digits acc false s' else None
    end
end.

Definition int_decimal (s : string) : option Z :=
match s with
| EmptyString => None
| String a s' =>
    if Ascii.eqb a "-" then Z.opp <$> digits 0 false s'
    else if Ascii.eqb a "+" then digits 0 false s'
    else digits 0 false s
end.

Module Sample.

(** The size reference [{"chromosomes": {"chr1": 100, "chr2": 100}}]. *)
Definition sizes : json :=
  JObj [("chromosomes", JObj [("chr1", JInt 100); ("chr2", JInt 100)])].

Definition load (text : string) : option json := Some sizes.

(** Full mode, bounds 2 and 10. *)
Definition self : SpriteVisu :=
  mkSpriteVisu "clusters.txt" 10 2 false sizes ["chr1"; "chr2"].

Definition args : arguments :=
  mkArguments "clusters.txt" "sizes.json" "spritevisu" 10 2 false.

(** A cluster of three reads and a cluster of one read. *)
Definition reads : list string :=
  ["readA_chr1:10-20"; "readB_chr1:30-40"; "readC_chr2:5-15"].

Definition lines : list (list string) :=
  [ "c1" :: reads; ["c2"; "readD_chr1:7-9"] ].

Definition w : world := mkWorld (λ _, Some EmptyString) (λ _, Some lines).

(** A cluster file whose second cluster holds a read with no underscore. *)
Definition broken_lines : list (list string) :=
  [ "c1" :: reads; ["c2"; "readD_chr1:7-9"; "chr2:5-15"] ].

Definition broken_w : world :=
  mkWorld (λ _, Some EmptyString) (λ _, Some broken_lines).

(** Reads on a chromosome that the registry does not hold. *)
Definition foreign_reads : list string := ["readA_chrX:1-2"; "readB_chrX:3-4"].

Definition mixed_reads : list string := ["readA_chrX:1-2"; "readB_chr1:3-4"].

End Sample.

(** All the lines of a store. *)
Definition stored_lines (cl : gmap string (list string)) : list string :=
map_to_list cl ≫= snd.

Definition sample_runtime : Runtime :=
  {| set_iter := insertion_order; py_int := int_decimal; json_load := Sample.load |}.

Definition sample_run : result unit * state :=
  @main sample_runtime Sample.args Sample.w.

Definition sample_hsv : result unit * state :=
  @generate_hsv sample_runtime Sample.self Sample.w "spritevisu" initial_state.

Definition broken_hsv : result unit * state :=
  @generate_hsv sample_runtime Sample.self Sample.broken_w "spritevisu" initial_state.

(** Further sample inputs: a start-only object with a cluster file in
    that format, a cluster file of one cluster below the minimum, and a
    MERFISH coordinate. *)
Module Cases.

Definition self_start_only : SpriteVisu :=
  mkSpriteVisu "clusters.txt" 10 2 true Sample.sizes ["chr1"; "chr2"].

Definition start_only_lines : list (list string) :=
  [ ["c1"; "chr1:10"; "chr1:30"; "chr2:5"]; ["c2"; "chr1:7"] ].

Definition start_only_w : world :=
  mkWorld (λ _, Some EmptyString) (λ _, Some start_only_lines).

Definition start_only_hsv : result unit * state :=
  @generate_hsv sample_runtime self_start_only start_only_w "spritevisu"
    initial_state.

Definition small_lines : list (list string) := [ ["c2"; "readD_chr1:7-9"] ].

Definition small_w : world :=
  mkWorld (λ _, Some EmptyString) (λ _, Some small_lines).

Definition members : list (string * json) :=
  [("chromosomes", JObj [("chr1", JInt 100); ("chr2", JInt 100)])].

Definition chroms : list (string * json) :=
  [("chr1", JInt 100); ("chr2", JInt 100)].

Definition coordinate : string := "chr1:100-201".

(** The reads of the coordinates [chr1:100-201] and [chr2:5-10]. *)
Definition converted : list string := ["chr1:150"; "chr2:7"].




(** A cluster of three reads on [chr1], two of them at position 10. *)
Definition repeated_reads : list string :=
  ["readA_chr1:10-20"; "readB_chr1:10-30"; "readC_chr1:30-40"].

End Cases.

(** * Properties *)

(** ** Strings *)

Lemma string_app_cons a (s t : string) : String a s +:+ t = String a (s +:+ t).
Proof. reflexivity. Qed.

Lemma string_app_empty (t : string) : EmptyString +:+ t = t.
Proof. reflexivity. Qed.

Lemma split_char_nonempty sep s : split_char sep s ≠ [].
Proof.
  destruct s as [|a s]; simpl; [done|].
  destruct (Ascii.eqb a sep); [done|]. by destruct (split_char sep s).
Qed.

Lemma split_char_absent sep s :
  has_char sep s = false → split_char sep s = [s].
Proof.
  induction s as [|a s IH]; simpl; [done|].
  intros [Ha Hs]%orb_false_iff. rewrite Ha, (IH Hs). done.
Qed.

Lemma split_once_absent sep s :
  has_char sep s = false → split_once sep s = None.
Proof.
  induction s as [|a s IH]; simpl; [done|].
  intros [Ha Hs]%orb_false_iff. by rewrite Ha, (IH Hs).
Qed.

Lemma rsplit_once_absent sep s :
  has_char sep s = false → rsplit_once sep s = None.
Proof.
  induction s as [|a s IH]; simpl; [done|].
  intros [Ha Hs]%orb_false_iff. by rewrite Ha, (IH Hs).
Qed.

Lemma rsplit_once_last sep name coord :
  has_char sep coord = false →
  rsplit_once sep (name +:+ String sep coord) = Some (name, coord).
Proof.
  intros Hc. induction name as [|a name IH].
  - rewrite string_app_empty. simpl.
    rewrite (rsplit_once_absent _ _ Hc). by rewrite Ascii.eqb_refl.
  - rewrite string_app_cons. simpl. by rewrite IH.
Qed.

Lemma has_char_app c s t :
  has_char c (s +:+ t) = has_char c s || has_char c t.
Proof.
  induction s as [|a s IH]; [done|].
  rewrite string_app_cons. simpl. by rewrite IH, orb_assoc.
Qed.

Lemma split_once_first sep l r :
  has_char sep l = false →
  split_once sep (l +:+ String sep r) = Some (l, r).
Proof.
  induction l as [|a l IH].
  - intros _. rewrite string_app_empty. simpl. by rewrite Ascii.eqb_refl.
  - intros H. cbn [has_char] in H. apply orb_false_iff in H as [Ha Hl].
    rewrite string_app_cons. simpl. by rewrite Ha, (IH Hl).
Qed.

Lemma split_char_first sep l r :
  has_char sep l = false →
  split_char sep (l +:+ String sep r) = l :: split_char sep r.
Proof.
  induction l as [|a l IH].
  - intros _. rewrite string_app_empty. simpl. by rewrite Ascii.eqb_refl.
  - intros H. cbn [has_char] in H. apply orb_false_iff in H as [Ha Hl].
    rewrite string_app_cons. simpl. by rewrite Ha, (IH Hl).
Qed.

(** The parts of a string hold no character the string does not hold. *)
Lemma split_char_parts sep c s :
  has_char c s = false → Forall (λ p, has_char c p = false) (split_char sep s).
Proof.
  induction s as [|a s IH]; simpl; [by repeat constructor|].
  intros [Ha Hs]%orb_false_iff. specialize (IH Hs).
  destruct (Ascii.eqb a sep); [by constructor|].
  destruct IH as [|p ps Hp Hps]; repeat constructor; simpl; [by rewrite Ha..|done].
Qed.


Section Properties.

Context {rt : Runtime} {rt_laws : RuntimeLaws}.

(** ** Properties of the contact store *)

Lemma known_true self chrom : known self chrom = true ↔ chrom ∈ _chromosome_list self.
Proof. unfold known. apply bool_decide_eq_true. Qed.

Lemma known_false self chrom : known self chrom = false ↔ chrom ∉ _chromosome_list self.
Proof. unfold known. apply bool_decide_eq_false. Qed.

Lemma add_contact_unknown self cid chrom1 start1 chrom2 start2 inc1 inc2 cl :
  chrom1 ∉ _chromosome_list self ∨ chrom2 ∉ _chromosome_list self →
  add_contact_to_list self cid chrom1 start1 chrom2 start2 inc1 inc2 cl = cl.
Proof.
  unfold add_contact_to_list.
  intros [H|H]; apply known_false in H; rewrite H; simpl; [done|].
  by rewrite orb_true_r.
Qed.

Lemma add_contact_known self cid chrom1 start1 chrom2 start2 inc1 inc2 cl :
  chrom1 ∈ _chromosome_list self → chrom2 ∈ _chromosome_list self →
  add_contact_to_list self cid chrom1 start1 chrom2 start2 inc1 inc2 cl =
    if String.ltb chrom2 chrom1
    then store_append (contact_key chrom2 chrom1) (contact_line start2 start1 inc2) cl
    else store_append (contact_key chrom1 chrom2) (contact_line start1 start2 inc2) cl.
Proof.
  intros H1%known_true H2%known_true. unfold add_contact_to_list.
  rewrite H1, H2. simpl. by destruct (String.ltb chrom2 chrom1).
Qed.

Lemma ltb_leb a b : String.ltb a b = true → String.leb a b = true.
Proof. unfold String.ltb, String.leb. by destruct (String.compare a b). Qed.

Lemma not_ltb_leb a b : String.ltb b a = false → String.leb a b = true.
Proof.
  unfold String.ltb, String.leb. rewrite (String.compare_antisym a b).
  by destruct (String.compare b a).
Qed.

Lemma ltb_irrefl a : String.ltb a a = false.
Proof.
  unfold String.ltb. pose proof (String.compare_antisym a a) as H.
  by destruct (String.compare a a).
Qed.

Lemma ltb_asym a b : String.ltb a b = true → String.ltb b a = false.
Proof.
  unfold String.ltb. rewrite (String.compare_antisym a b).
  by destruct (String.compare b a).
Qed.

Lemma ltb_total a b : a ≠ b → String.ltb a b = false → String.ltb b a = true.
Proof.
  unfold String.ltb. intros Hne. rewrite (String.compare_antisym b a).
  destruct (String.compare a b) eqn:Hc; simpl; try done.
  by apply String.compare_eq_iff in Hc.
Qed.

Lemma store_append_lookup key line cl k :
  store_append key line cl !! k =
    if decide (key = k) then Some ((cl !!! key) ++ [line]) else cl !! k.
Proof. unfold store_append. apply lookup_insert. Qed.

Lemma store_inv_empty self : store_inv self ∅.
Proof. intros key lines H. by rewrite lookup_empty in H. Qed.

Lemma store_inv_default self cl key :
  store_inv self cl → Forall is_line (cl !!! key).
Proof.
  intros Hinv. rewrite lookup_total_alt.
  destruct (cl !! key) as [ls|] eqn:Hk; simpl; [|constructor].
  by destruct (Hinv _ _ Hk) as (_ & ? & _).
Qed.

Lemma store_inv_append self cl chrom1 chrom2 start1 start2 inc2 :
  chrom1 ∈ _chromosome_list self → chrom2 ∈ _chromosome_list self →
  String.leb chrom1 chrom2 = true →
  store_inv self cl →
  store_inv self (store_append (contact_key chrom1 chrom2)
                    (contact_line start1 start2 inc2) cl).
Proof.
  intros H1 H2 Hle Hinv k ls. rewrite store_append_lookup.
  case_decide as Hk; [|by apply Hinv].
  intros [= <-]. subst k. split; [by destruct (cl !!! _)|]. split.
  - apply Forall_app. split; [by apply (store_inv_default self)|].
    repeat constructor. by exists start1, start2, inc2.
  - by exists chrom1, chrom2.
Qed.

Lemma store_inv_add self cid chrom1 start1 chrom2 start2 inc1 inc2 cl :
  store_inv self cl →
  store_inv self (add_contact_to_list self cid chrom1 start1 chrom2 start2 inc1 inc2 cl).
Proof.
  intros Hinv.
  destruct (decide (chrom1 ∈ _chromosome_list self)) as [H1|H1];
    [|by rewrite add_contact_unknown by auto].
  destruct (decide (chrom2 ∈ _chromosome_list self)) as [H2|H2];
    [|by rewrite add_contact_unknown by auto].
  rewrite add_contact_known by done.
  destruct (String.ltb chrom2 chrom1) eqn:Hlt.
  - apply store_inv_append; auto using ltb_leb.
  - apply store_inv_append; auto using not_ltb_leb.
Qed.

(** ** The contacts a cluster emits *)

Lemma foldl_bind {A B C} (f : A → B → A) (g : C → list B) (l : list C) (a : A) :
  foldl f a (l ≫= g) = foldl (λ a x, foldl f a (g x)) a l.
Proof.
  revert a. induction l as [|x l IH]; intros a; [done|].
  rewrite bind_cons, foldl_app. simpl. apply IH.
Qed.

Lemma foldl_same {A B} (f g : A → B → A) (l : list B) (a : A) :
  (∀ a x, f a x = g a x) → foldl f a l = foldl g a l.
Proof.
  intros Hfg. revert a. induction l as [|x l IH]; intros a; simpl; [done|].
  by rewrite Hfg, IH.
Qed.

Lemma intra_chrom_emit self cid reads_len cl item :
  intra_chrom self cid reads_len cl item = foldl (emit self cid) cl (intra_of reads_len item).
Proof.
  destruct item as [chrom bin_set]. unfold intra_chrom, intra_of. simpl.
  destruct (1 <? set_len bin_set); [|done].
  rewrite foldl_fmap. apply foldl_same. by intros a [s1 s2].
Qed.

Lemma intra_pass_emit self cid reads_len bins cl :
  intra_pass self cid reads_len bins cl =
    foldl (emit self cid) cl (intra_contacts reads_len bins).
Proof.
  unfold intra_pass, intra_contacts. rewrite foldl_bind.
  apply foldl_same. intros. apply intra_chrom_emit.
Qed.

Lemma inter_pair_emit self cid reads_len bins cl pair :
  inter_pair self cid reads_len bins cl pair =
    foldl (emit self cid) cl (inter_of reads_len bins pair).
Proof.
  destruct pair as [chrom1 chrom2]. unfold inter_pair, inter_of. simpl.
  rewrite foldl_bind. apply foldl_same. intros a start1.
  by rewrite foldl_fmap.
Qed.

Lemma inter_pass_emit self cid reads_len bins cl :
  inter_pass self cid reads_len bins cl =
    foldl (emit self cid) cl (inter_contacts reads_len bins).
Proof.
  unfold inter_pass, inter_contacts.
  destruct (1 <? length bins)%nat; [|done].
  rewrite foldl_bind. apply foldl_same. intros. apply inter_pair_emit.
Qed.

Lemma store_inv_emit self cid cl cs :
  store_inv self cl → store_inv self (foldl (emit self cid) cl cs).
Proof.
  revert cl. induction cs as [|c cs IH]; intros cl Hinv; simpl; [done|].
  apply IH. by apply store_inv_add.
Qed.

(** *** Pairs *)

Lemma combinations2_length {A} (l : list A) :
  (2 * length (combinations2 l) = length l * (length l - 1))%nat.
Proof.
  induction l as [|x l IH]; simpl; [done|].
  rewrite length_app, length_fmap. nia.
Qed.

Lemma combinations2_count {A} (l : list A) :
  Z.of_nat (length (combinations2 l)) =
    Z.of_nat (length l) * (Z.of_nat (length l) - 1) / 2.
Proof.
  pose proof (combinations2_length l) as H.
  apply Z.div_unique_exact; [done|]. nia.
Qed.

Lemma elem_of_combinations2_cons {A} (x : A) t a b :
  (a, b) ∈ combinations2 (x :: t) ↔ (a = x ∧ b ∈ t) ∨ (a, b) ∈ combinations2 t.
Proof.
  simpl. rewrite elem_of_app, list_elem_of_fmap. split.
  - intros [(y & [= -> ->] & Hy)|H]; auto.
  - intros [[-> Hb]|H]; [left; by exists b|by right].
Qed.

Lemma elem_of_combinations2 {A} (l : list A) a b :
  (a, b) ∈ combinations2 l → a ∈ l ∧ b ∈ l.
Proof.
  induction l as [|x t IH]; [by intros ?%elem_of_nil|].
  rewrite elem_of_combinations2_cons. intros [[-> Hb]|H].
  - split; [left|by right].
  - destruct (IH H). split; by right.
Qed.

Lemma combinations2_distinct {A} (l : list A) a b :
  NoDup l → (a, b) ∈ combinations2 l → a ≠ b.
Proof.
  induction 1 as [|x t Hx Ht IH]; [by intros ?%elem_of_nil|].
  rewrite elem_of_combinations2_cons. intros [[-> Hb]|H]; [|by apply IH].
  by intros <-.
Qed.

Lemma combinations2_oriented {A} (l : list A) a b :
  NoDup l → (a, b) ∈ combinations2 l → (b, a) ∉ combinations2 l.
Proof.
  induction 1 as [|x t Hx Ht IH]; [by intros ?%elem_of_nil|].
  rewrite !elem_of_combinations2_cons. intros [[-> Hb]|H] [[-> Ha]|H'].
  - done.
  - by apply elem_of_combinations2 in H' as [_ ?].
  - by apply elem_of_combinations2 in H as [_ ?].
  - by apply IH.
Qed.

Lemma combinations2_covers {A} (l : list A) a b :
  a ∈ l → b ∈ l → a ≠ b → (a, b) ∈ combinations2 l ∨ (b, a) ∈ combinations2 l.
Proof.
  induction l as [|x t IH]; [by intros ?%elem_of_nil|].
  rewrite !elem_of_cons, !elem_of_combinations2_cons.
  intros [->|Ha] [->|Hb] Hne; try done; auto.
  destruct (IH Ha Hb Hne); auto.
Qed.

Lemma combinations2_NoDup {A} (l : list A) : NoDup l → NoDup (combinations2 l).
Proof.
  induction 1 as [|x t Hx Ht IH]; simpl; [constructor|].
  apply NoDup_app. split_and!.
  - apply NoDup_fmap_2; [|done]. by intros ?? [=].
  - intros [a b] (y & [= -> ->] & Hy)%list_elem_of_fmap H.
    by apply elem_of_combinations2 in H as [? _].
  - done.
Qed.

(** *** Sets *)

Lemma set_iter_NoDup h : NoDup (set_iter h).
Proof. rewrite set_iter_perm. apply NoDup_elements. Qed.

Lemma elem_of_set_iter h x : x ∈ set_iter h ↔ x ∈ h.
Proof. by rewrite set_iter_perm, elem_of_elements, elem_of_list_to_set. Qed.

Lemma set_len_size h : set_len h = Z.of_nat (size (list_to_set h : gset Z)).
Proof. unfold set_len, size, set_size. simpl. by rewrite set_iter_perm. Qed.

Lemma set_len_duplicate h x : x ∈ h → set_len (h ++ [x]) = set_len h.
Proof.
  intros Hx. rewrite !set_len_size. do 2 f_equal.
  rewrite list_to_set_snoc_L.
  rewrite (comm_L (∪)). apply subseteq_union_1_L, singleton_subseteq_l.
  by apply elem_of_list_to_set.
Qed.

(** *** Bins *)

Lemma bins_add_keys chrom i bins :
  fst <$> bins_add chrom i bins =
    if decide (chrom ∈ fst <$> bins) then fst <$> bins else (fst <$> bins) ++ [chrom].
Proof.
  induction bins as [|[c h] rest IH]; [done|].
  cbn [bins_add]. destruct (decide (c = chrom)) as [->|Hne].
  - rewrite decide_True by (rewrite fmap_cons; left). done.
  - rewrite fmap_cons, IH. destruct (decide (chrom ∈ fst <$> rest)) as [Hin|Hin].
    + rewrite decide_True by (rewrite fmap_cons; by right). done.
    + rewrite decide_False; [done|].
      rewrite fmap_cons. intros [?|?]%elem_of_cons; simplify_eq/=; done.
Qed.

Lemma bins_add_NoDup chrom i bins :
  NoDup (fst <$> bins) → NoDup (fst <$> bins_add chrom i bins).
Proof.
  intros Hnd. rewrite bins_add_keys. case_decide as Hin; [done|].
  apply NoDup_app. split_and!; [done| |apply NoDup_singleton].
  intros x Hx ->%list_elem_of_singleton. done.
Qed.

Lemma bins_get_elem chrom h bins :
  NoDup (fst <$> bins) → (chrom, h) ∈ bins → bins_get chrom bins = h.
Proof.
  induction bins as [|[c h'] rest IH]; simpl; [by intros _ ?%elem_of_nil|].
  intros [Hc Hrest]%NoDup_cons [[= <- <-]|Hin]%elem_of_cons.
  - by rewrite decide_True.
  - rewrite decide_False; [by apply IH|].
    intros ->. apply Hc, list_elem_of_fmap. by exists (chrom, h).
Qed.

(** *** Reads *)

Lemma process_read_eq self cid bins read s :
  process_read self cid bins read s =
    match parsed self cid read with
    | Some p => (Ok (add_parsed bins p), push_parsed s p)
    | None => (Raise ValueError, s)
    end.
Proof.
  unfold process_read, parsed. destruct (negb (_start_only self)).
  - destruct (parse_full read) as [[[chrom start] end_]|]; [|done].
    by destruct (py_int start).
  - destruct (parse_start_only read) as [[chrom start]|]; [|done].
    by destruct (py_int start).
Qed.

Lemma reads_ok self cid reads ps bins s :
  mapM (parsed self cid) reads = Some ps →
  fold_m (process_read self cid) bins reads s =
    (Ok (foldl add_parsed bins ps), foldl push_parsed s ps).
Proof.
  revert ps bins s. induction reads as [|read reads IH]; intros ps bins s.
  - by intros [= <-].
  - csimpl. unfold bind at 1. rewrite process_read_eq.
    destruct (parsed self cid read) as [p|]; [|done]. csimpl.
    destruct (mapM (parsed self cid) reads) as [ps'|] eqn:Hps; [|done].
    intros [= <-]. simpl. by apply IH.
Qed.

Lemma reads_fail self cid reads bins s :
  mapM (parsed self cid) reads = None →
  ∃ ps, fold_m (process_read self cid) bins reads s =
          (Raise ValueError, foldl push_parsed s ps).
Proof.
  revert bins s. induction reads as [|read reads IH]; intros bins s; [done|].
  csimpl. unfold bind at 1. rewrite process_read_eq.
  destruct (parsed self cid read) as [p|]; [|by exists []]. csimpl.
  destruct (mapM (parsed self cid) reads) as [ps'|] eqn:Hps; [done|].
  intros _. destruct (IH (add_parsed bins p) (push_parsed s p) eq_refl) as [ps Hps'].
  by exists (p :: ps).
Qed.

Lemma reads_fail_iff self cid reads :
  mapM (parsed self cid) reads = None ↔
  ∃ read, read ∈ reads ∧ parsed self cid read = None.
Proof.
  induction reads as [|read reads IH]; csimpl.
  - split; [done|]. by intros (? & ?%elem_of_nil & _).
  - destruct (parsed self cid read) as [p|] eqn:Hp; csimpl.
    + destruct (mapM (parsed self cid) reads) as [ps|]; csimpl.
      * split; [done|]. intros (r & [->|Hin]%elem_of_cons & Hr); [congruence|].
        destruct IH as [_ IH]. by discriminate IH; eauto.
      * split; [|done]. intros _. destruct IH as [(r & ? & ?) _]; [done|].
        exists r. split; [by right|done].
    + split; [|done]. intros _. exists read. split; [left|done].
Qed.

Lemma add_parsed_NoDup ps bins :
  NoDup (fst <$> bins) → NoDup (fst <$> foldl add_parsed bins ps).
Proof.
  revert bins. induction ps as [|p ps IH]; intros bins Hnd; simpl; [done|].
  apply IH. by apply bins_add_NoDup.
Qed.

Lemma push_parsed_db_rows ps s :
  db_rows (foldl push_parsed s ps) = db_rows s ++ (snd <$> ps).
Proof.
  revert s. induction ps as [|p ps IH]; intros s; simpl.
  - by rewrite app_nil_r.
  - rewrite IH. simpl. by rewrite <- app_assoc.
Qed.

(** *** One line of the cluster file *)

Lemma process_line_skip self cid reads s :
  in_bounds self (Z.of_nat (length reads)) = false →
  process_line self (cid :: reads) s = (Ok tt, s).
Proof. intros H. unfold process_line. by rewrite H. Qed.

Lemma process_line_ok self cid reads ps s :
  in_bounds self (Z.of_nat (length reads)) = true →
  mapM (parsed self cid) reads = Some ps →
  process_line self (cid :: reads) s =
    (Ok tt,
     set_contact_lists
       (λ cl, foldl (emit self cid) cl
                (cluster_contacts (Z.of_nat (length reads)) (cluster_bins ps)))
       (foldl push_parsed s ps)).
Proof.
  intros Hb Hps. unfold process_line. rewrite Hb. simpl.
  unfold bind. rewrite (reads_ok _ _ _ _ _ _ Hps).
  unfold modify, set_contact_lists, cluster_contacts. do 2 f_equal.
  by rewrite foldl_app, inter_pass_emit, intra_pass_emit.
Qed.

Lemma process_line_fail self cid reads s :
  in_bounds self (Z.of_nat (length reads)) = true →
  mapM (parsed self cid) reads = None →
  ∃ ps, process_line self (cid :: reads) s =
          (Raise ValueError, foldl push_parsed s ps).
Proof.
  intros Hb Hps. unfold process_line. rewrite Hb. simpl.
  destruct (reads_fail _ _ _ [] s Hps) as [ps Hf].
  exists ps. unfold bind. by rewrite Hf.
Qed.

(** *** The whole file *)

Lemma generate_hsv_eq self w output s0 :
  generate_hsv self w output s0 =
    match file_lines w (_cluster_file self) with
    | None => (Raise OSError, prepared self output s0)
    | Some lines =>
        match for_each (process_line self) lines (prepared self output s0) with
        | (Ok _, s2) => (Ok tt, finished s2)
        | (Raise e, s2) => (Raise e, s2)
        end
    end.
Proof.
  unfold generate_hsv, bind, makedirs, save_meta, create_table,
    open_cluster_file, write_contact_files, commit, modify, prepared. simpl.
  destruct (file_lines w (_cluster_file self)) as [lines|]; [|done]. simpl.
  by destruct (for_each _ _ _) as [[[]|e] s2].
Qed.

Lemma run_inv_push self ps s : run_inv self s → run_inv self (foldl push_parsed s ps).
Proof.
  revert s. induction ps as [|p ps IH]; intros s H; simpl; [done|].
  apply IH. by destruct H.
Qed.

(** One line either leaves the state, or inserts rows and raises, or
    inserts rows and emits the cluster's contacts. *)
Lemma process_line_cases self line s :
  (process_line self line s = (Raise IndexError, s) ∧ line = []) ∨
  (process_line self line s = (Ok tt, s) ∧
     in_bounds self (Z.of_nat (length (reads_of line))) = false) ∨
  (∃ cid reads ps, line = cid :: reads ∧
     in_bounds self (Z.of_nat (length reads)) = true ∧
     mapM (parsed self cid) reads = None ∧
     process_line self line s = (Raise ValueError, foldl push_parsed s ps)) ∨
  (∃ cid reads ps, line = cid :: reads ∧
     in_bounds self (Z.of_nat (length reads)) = true ∧
     mapM (parsed self cid) reads = Some ps ∧
     process_line self line s =
       (Ok tt,
        set_contact_lists
          (λ cl, foldl (emit self cid) cl
                   (cluster_contacts (Z.of_nat (length reads)) (cluster_bins ps)))
          (foldl push_parsed s ps))).
Proof.
  destruct line as [|cid reads]; [by left|]. right.
  destruct (in_bounds self (Z.of_nat (length reads))) eqn:Hb.
  - right. destruct (mapM (parsed self cid) reads) as [ps|] eqn:Hps.
    + right. exists cid, reads, ps. by rewrite (process_line_ok _ _ _ ps).
    + left. destruct (process_line_fail self cid reads s Hb Hps) as [ps Hf].
      by exists cid, reads, ps.
  - left. by rewrite process_line_skip.
Qed.

Lemma process_line_inv self line s :
  run_inv self s → run_inv self (process_line self line s).2.
Proof.
  intros Hinv.
  destruct (process_line_cases self line s)
    as [[-> _]|[[-> _]|[(cid & reads & ps & _ & _ & _ & ->)
                       |(cid & reads & ps & _ & _ & _ & ->)]]]; simpl; try done.
  - by apply run_inv_push.
  - apply (run_inv_push _ ps) in Hinv. destruct Hinv as (Hst & Hf & Hc).
    split; [|done]. simpl. by apply store_inv_emit.
Qed.

Lemma for_each_inv self lines s :
  run_inv self s → run_inv self (for_each (process_line self) lines s).2.
Proof.
  revert s. induction lines as [|line lines IH]; intros s Hinv; simpl; [done|].
  unfold bind. pose proof (process_line_inv self line s Hinv) as H.
  destruct (process_line self line s) as [[[]|e] s1]; simpl in *; auto.
Qed.

Lemma run_inv_prepared self output : run_inv self (prepared self output initial_state).
Proof. split; [apply store_inv_empty|done]. Qed.

(** What a run leaves: either it completes, and the contact files are
    those of the store, or it raises, and there is no contact file. *)
Lemma generate_hsv_outcome self w output r s :
  generate_hsv self w output initial_state = (r, s) →
  store_inv self (contact_lists s) ∧
  ((r = Ok tt ∧ contact_files s = files_of (contact_lists s) ∧ db_committed s = true) ∨
   ((∃ e, r = Raise e) ∧ contact_files s = ∅ ∧ db_committed s = false)).
Proof.
  rewrite generate_hsv_eq.
  destruct (file_lines w (_cluster_file self)) as [lines|].
  - pose proof (for_each_inv self lines _ (run_inv_prepared self output)) as H.
    destruct (for_each _ _ _) as [[[]|e] s2]; simpl in H;
      destruct H as (Hst & Hf & Hc); intros [= <- <-].
    + split; [done|]. left. simpl. rewrite Hf. by rewrite (right_id_L ∅ (∪)).
    + split; [done|]. right. eauto.
  - intros [= <- <-]. split; [apply store_inv_empty|]. right. eauto.
Qed.

(** *** File names and lines *)

Lemma string_app_length (s t : string) :
  String.length (s +:+ t) = (String.length s + String.length t)%nat.
Proof.
  induction s as [|a s IH]; [done|].
  rewrite string_app_cons. simpl. by rewrite IH.
Qed.

Lemma string_app_inj_r (x s t : string) : s +:+ x = t +:+ x → s = t.
Proof.
  revert t. induction s as [|a s IH]; intros [|b t] H.
  - done.
  - apply (f_equal String.length) in H.
    rewrite string_app_empty, string_app_length in H. simpl in H. lia.
  - apply (f_equal String.length) in H.
    rewrite string_app_empty, string_app_length in H. simpl in H. lia.
  - rewrite !string_app_cons in H. injection H as -> H. f_equal. by apply IH.
Qed.

#[local] Instance file_name_inj : Inj (=) (=) file_name.
Proof. intros s t H. by apply string_app_inj_r in H. Qed.

Lemma contact_line_not_empty start1 start2 inc2 :
  contact_line start1 start2 inc2 ≠ EmptyString.
Proof.
  unfold contact_line. destruct (pretty start1) as [|a p]; [|by rewrite string_app_cons].
  by rewrite string_app_empty.
Qed.

Lemma concat_not_empty (lines : list string) :
  lines ≠ [] → Forall is_line lines → String.concat newline lines ≠ EmptyString.
Proof.
  destruct lines as [|l ls]; [done|]. intros _ Hl.
  apply Forall_cons in Hl as [(s1 & s2 & w & ->) _].
  pose proof (contact_line_not_empty s1 s2 w) as Hne.
  destruct ls as [|l' ls]; simpl; [done|].
  destruct (contact_line s1 s2 w); [done|]. by rewrite string_app_cons.
Qed.

Lemma files_of_lookup cl name content :
  files_of cl !! name = Some content ↔
  ∃ key lines, name = file_name key ∧ cl !! key = Some lines ∧
               content = String.concat newline lines.
Proof.
  unfold files_of. rewrite lookup_kmap_Some by apply _. split.
  - intros (key & -> & (lines & <- & Hk)%lookup_fmap_Some). eauto.
  - intros (key & lines & -> & Hk & ->). exists key. split; [done|].
    apply lookup_fmap_Some. eauto.
Qed.

(** ** Size bounds *)

(** C4. A cluster whose read count is below [min_cluster_size] or above
    [max_cluster_size] is skipped as a whole: processing its line raises
    nothing and leaves the state as it was, so the contact store gains no
    line for any of its chromosomes or chromosome pairs. *)
Theorem out_of_bounds_cluster_discarded self cid reads s :
  Z.of_nat (length reads) < _min_cluster_size self ∨
  _max_cluster_size self < Z.of_nat (length reads) →
  process_line self (cid :: reads) s = (Ok tt, s) ∧
  contact_lists (process_line self (cid :: reads) s).2 = contact_lists s.
Proof.
  intros H. assert (in_bounds self (Z.of_nat (length reads)) = false) as Hb.
  { unfold in_bounds. apply andb_false_iff. destruct H; [left|right]; lia. }
  by rewrite process_line_skip.
Qed.

(** ** Canonical pairs *)

(** C5, as amended. For two distinct recognised chromosomes [A] and [B],
    adding a contact for [(A, s1, B, s2)] and adding one for
    [(B, s2, A, s1)] with the same weight append the same line under the
    same key, whose first chromosome is the lexicographically smaller one.
    For [A = B] both calls use the key [A-A] and each keeps its positions
    in the order given. In every store a run builds, each key is
    [chrom1-chrom2] with [chrom1] lexicographically at most [chrom2]. *)
Theorem canonical_pair_symmetric self cid A s1 B s2 inc1 inc1' weight cl :
  A ∈ _chromosome_list self → B ∈ _chromosome_list self →
  (A ≠ B →
     add_contact_to_list self cid A s1 B s2 inc1 weight cl =
     add_contact_to_list self cid B s2 A s1 inc1' weight cl ∧
     ∃ lo hi slo shi,
       String.ltb lo hi = true ∧
       ((lo, slo, hi, shi) = (A, s1, B, s2) ∨ (lo, slo, hi, shi) = (B, s2, A, s1)) ∧
       add_contact_to_list self cid A s1 B s2 inc1 weight cl =
         store_append (contact_key lo hi) (contact_line slo shi weight) cl) ∧
  (A = B →
     add_contact_to_list self cid A s1 B s2 inc1 weight cl =
       store_append (contact_key A A) (contact_line s1 s2 weight) cl ∧
     add_contact_to_list self cid B s2 A s1 inc1' weight cl =
       store_append (contact_key A A) (contact_line s2 s1 weight) cl) ∧
  (∀ w output r s key,
     generate_hsv self w output initial_state = (r, s) →
     is_Some (contact_lists s !! key) →
     ∃ chrom1 chrom2, key = contact_key chrom1 chrom2 ∧
                      String.leb chrom1 chrom2 = true).
Proof.
  intros HA HB. split_and!.
  - intros Hne. rewrite !add_contact_known by done.
    destruct (String.ltb B A) eqn:Hlt.
    + rewrite (ltb_asym _ _ Hlt). split; [done|].
      exists B, A, s2, s1. auto.
    + rewrite (ltb_total B A) by done. split; [done|].
      exists A, B, s1, s2. split_and!; auto using ltb_total.
  - intros <-. rewrite !add_contact_known by done. by rewrite ltb_irrefl.
  - intros w output r s key Hrun [lines Hk].
    apply generate_hsv_outcome in Hrun as [Hinv _].
    destruct (Hinv _ _ Hk) as (_ & _ & c1 & c2 & -> & _ & _ & Hle). eauto.
Qed.

(** ** Unrecognised chromosomes *)

(** C6. Adding a contact whose first or second chromosome is not in the
    registry returns the store as it was, with no error. Hence every key
    of the store a run builds, and every contact file it writes, is named
    after two chromosomes of the registry. *)
Theorem unrecognised_chromosome_excluded self cid chrom1 start1 chrom2 start2
    inc1 inc2 cl :
  chrom1 ∉ _chromosome_list self ∨ chrom2 ∉ _chromosome_list self →
  add_contact_to_list self cid chrom1 start1 chrom2 start2 inc1 inc2 cl = cl ∧
  (∀ w output r s,
     generate_hsv self w output initial_state = (r, s) →
     (∀ key, is_Some (contact_lists s !! key) →
        ∃ c1 c2, key = contact_key c1 c2 ∧
                 c1 ∈ _chromosome_list self ∧ c2 ∈ _chromosome_list self) ∧
     (∀ name, is_Some (contact_files s !! name) →
        ∃ c1 c2, name = file_name (contact_key c1 c2) ∧
                 c1 ∈ _chromosome_list self ∧ c2 ∈ _chromosome_list self)).
Proof.
  intros H. split; [by apply add_contact_unknown|].
  intros w output r s Hrun.
  apply generate_hsv_outcome in Hrun as [Hinv Hfiles].
  assert (∀ key, is_Some (contact_lists s !! key) →
            ∃ c1 c2, key = contact_key c1 c2 ∧
                     c1 ∈ _chromosome_list self ∧ c2 ∈ _chromosome_list self) as Hkeys.
  { intros key [lines Hk].
    destruct (Hinv _ _ Hk) as (_ & _ & c1 & c2 & -> & ? & ? & _). eauto. }
  split; [done|]. intros name [content Hn].
  destruct Hfiles as [(_ & Hf & _)|(_ & Hf & _)]; rewrite Hf in Hn.
  - apply files_of_lookup in Hn as (key & lines & -> & Hk & _).
    destruct (Hkeys key) as (c1 & c2 & -> & ? & ?); eauto.
  - by rewrite lookup_empty in Hn.
Qed.

(** ** Output files *)

(** C10. Every contact file a run writes is [key.txt] for a key of the
    store, and its content is the newline-joined lines of that key, of
    which there is at least one, each of the form [start1,start2,weight]:
    the file is not empty. A key that is not in the store has no file. *)
Theorem written_files_not_empty self w output r s :
  generate_hsv self w output initial_state = (r, s) →
  (∀ key lines, contact_lists s !! key = Some lines → lines ≠ []) ∧
  (∀ name content, contact_files s !! name = Some content →
     ∃ key lines, name = file_name key ∧ contact_lists s !! key = Some lines ∧
                  lines ≠ [] ∧ Forall is_line lines ∧
                  content = String.concat newline lines ∧
                  content ≠ EmptyString) ∧
  (∀ key, contact_lists s !! key = None → contact_files s !! file_name key = None).
Proof.
  intros Hrun. apply generate_hsv_outcome in Hrun as [Hinv Hfiles]. split_and!.
  - intros key lines Hk. by destruct (Hinv _ _ Hk).
  - intros name content Hn.
    destruct Hfiles as [(_ & Hf & _)|(_ & Hf & _)]; rewrite Hf in Hn;
      [|by rewrite lookup_empty in Hn].
    apply files_of_lookup in Hn as (key & lines & -> & Hk & ->).
    destruct (Hinv _ _ Hk) as (Hne & Hl & _).
    exists key, lines. split_and!; auto using concat_not_empty.
  - intros key Hk.
    destruct Hfiles as [(_ & Hf & _)|(_ & Hf & _)]; rewrite Hf;
      [|apply lookup_empty].
    unfold files_of. rewrite lookup_kmap by apply _.
    by rewrite lookup_fmap, Hk.
Qed.

(** ** The calls of the intrachromosomal loop *)

Lemma intra_of_elem reads_len item c :
  c ∈ intra_of reads_len item →
  c_chrom1 c = item.1 ∧ c_chrom2 c = item.1 ∧ c_inc2 c = set_len item.2 ∧
  c_inc1 c = reads_len ∧ (c_start1 c, c_start2 c) ∈ combinations2 (set_iter item.2).
Proof.
  unfold intra_of. destruct (1 <? set_len item.2); [|by intros ?%elem_of_nil].
  intros ([a b] & -> & Hp)%list_elem_of_fmap. done.
Qed.

(** ** Rows of the relational table *)

Lemma parsed_row4 self cid read p :
  _start_only self = false → parsed self cid read = Some p → is_row4 p.2.
Proof.
  unfold parsed. intros ->. simpl.
  destruct (parse_full read) as [[[chrom start] end_]|]; [|done].
  destruct (py_int start); [|done]. intros [= <-]. by eexists _, _, _, _.
Qed.

Lemma for_each_rows self lines s s' :
  for_each (process_line self) lines s = (Ok tt, s') →
  ∃ rows, db_rows s' = db_rows s ++ rows ∧
          length rows = bounded_reads self lines ∧
          (_start_only self = false → Forall is_row4 rows).
Proof.
  revert s. induction lines as [|line lines IH]; intros s.
  - intros [= <-]. exists []. by rewrite app_nil_r.
  - simpl. unfold bind.
    destruct (process_line_cases self line s)
      as [[-> _]|[[-> Hb]|[(cid & reads & ps & _ & _ & _ & ->)
                          |(cid & reads & ps & -> & Hb & Hps & ->)]]]; try done.
    + intros (rows & ? & ? & ?)%IH. exists rows. rewrite Hb. done.
    + intros (rows & Hrows & Hlen & H4)%IH. simpl in Hrows.
      rewrite push_parsed_db_rows in Hrows.
      exists ((snd <$> ps) ++ rows). split_and!.
      * by rewrite Hrows, app_assoc.
      * simpl. rewrite Hb, length_app, length_fmap, Hlen.
        apply mapM_Some in Hps. by rewrite (Forall2_length _ _ _ Hps).
      * intros Hfull. apply Forall_app. split; [|by apply H4].
        apply mapM_Some in Hps. apply Forall_fmap.
        clear -Hps Hfull. induction Hps; constructor; [|done].
        by eapply parsed_row4.
Qed.

(** C1, as amended. In a full-mode run that completes, the rows inserted
    into the table [contacts] are as many as the reads of the clusters
    whose read count lies within [[min_cluster_size, max_cluster_size]],
    each a four-column row, and they are committed. The bounds test
    precedes the loop over the reads, so it skips the rows of a cluster as
    it skips its contacts. *)
Theorem rows_count_bounded_clusters self w output lines s :
  _start_only self = false →
  file_lines w (_cluster_file self) = Some lines →
  generate_hsv self w output initial_state = (Ok tt, s) →
  length (db_rows s) = bounded_reads self lines ∧
  Forall is_row4 (db_rows s) ∧
  db_committed s = true.
Proof.
  intros Hfull Hlines. rewrite generate_hsv_eq, Hlines.
  destruct (for_each _ _ _) as [[[]|e] s2] eqn:Hloop; [|done].
  intros [= <-]. apply for_each_rows in Hloop as (rows & Hrows & Hlen & H4).
  simpl in *. rewrite Hrows. auto.
Qed.

(** ** Loading the registry *)



(** ** Malformed reads *)

Lemma parse_full_no_colon name coord :
  has_char "_" coord = false → has_char ":" coord = false →
  parse_full (name +:+ "_" +:+ coord) = None.
Proof.
  intros Hu Hc. unfold parse_full.
  change ("_" +:+ coord) with (String "_" coord).
  rewrite (rsplit_once_last _ _ _ Hu).
  by rewrite (split_char_absent _ _ Hc).
Qed.

Lemma parse_full_no_dash name coord :
  has_char "_" coord = false → has_char "-" coord = false →
  parse_full (name +:+ "_" +:+ coord) = None.
Proof.
  intros Hu Hd. unfold parse_full.
  change ("_" +:+ coord) with (String "_" coord).
  rewrite (rsplit_once_last _ _ _ Hu).
  pose proof (split_char_parts ":" _ _ Hd) as Hparts.
  destruct (split_char ":" coord) as [|chrom [|position [|]]]; try done.
  apply Forall_cons in Hparts as [_ [Hp _]%Forall_cons].
  by rewrite (split_char_absent _ _ Hp).
Qed.

Lemma parse_full_fields name chrom start end_ :
  has_char "_" (chrom +:+ ":" +:+ start +:+ "-" +:+ end_) = false →
  has_char ":" chrom = false →
  has_char ":" start = false → has_char ":" end_ = false →
  has_char "-" start = false → has_char "-" end_ = false →
  parse_full (name +:+ "_" +:+ chrom +:+ ":" +:+ start +:+ "-" +:+ end_)
    = Some (chrom, start, end_).
Proof.
  intros Hu Hc Hs He Hds Hde. unfold parse_full.
  change ("_" +:+ ?x) with (String "_" x).
  rewrite (rsplit_once_last _ _ _ Hu).
  change (":" +:+ ?x) with (String ":" x).
  rewrite (split_char_first _ _ _ Hc).
  rewrite split_char_absent.
  2:{ rewrite has_char_app, Hs. simpl. done. }
  change ("-" +:+ ?x) with (String "-" x).
  rewrite (split_char_first _ _ _ Hds).
  by rewrite (split_char_absent _ _ Hde).
Qed.

Lemma malformed_parsed self cid read :
  malformed self read → parsed self cid read = None.
Proof.
  unfold malformed, parsed. destruct (_start_only self); simpl.
  - unfold parse_start_only. intros [H|(chrom & start & -> & Hc & Hi)].
    + by rewrite (split_once_absent _ _ H).
    + change (":" +:+ start) with (String ":" start).
      rewrite (split_once_first _ _ _ Hc). by rewrite Hi.
  - intros [H|(name & coord & -> & Hu & [H|[H|H]])].
    + unfold parse_full. by rewrite (rsplit_once_absent _ _ H).
    + by rewrite parse_full_no_colon.
    + by rewrite parse_full_no_dash.
    + destruct H as (chrom & start & end_ & -> & Hc & Hs & He & Hds & Hde & Hi).
      rewrite parse_full_fields by done. by rewrite Hi.
Qed.

Lemma for_each_malformed self lines s cid reads :
  (cid :: reads) ∈ lines →
  in_bounds self (Z.of_nat (length reads)) = true →
  mapM (parsed self cid) reads = None →
  ∃ e s', for_each (process_line self) lines s = (Raise e, s').
Proof.
  intros Hin Hb Hps. revert s.
  induction lines as [|line lines IH]; intros s; [by apply elem_of_nil in Hin|].
  simpl. unfold bind.
  destruct (process_line self line s) as [[[]|e] s1] eqn:Hline; [|by eauto].
  apply elem_of_cons in Hin as [<-|Hin]; [|by apply IH].
  destruct (process_line_fail self cid reads s Hb Hps) as [ps Hf]. congruence.
Qed.

(** C9. When a read of a cluster within the bounds is malformed, the run
    ends with an exception raised in the loop over the cluster file:
    [write_contact_files] is not reached, no contact file is written, also
    none for the clusters processed before, and nothing is committed. *)
Theorem malformed_read_aborts self w output lines cid reads read r s :
  file_lines w (_cluster_file self) = Some lines →
  (cid :: reads) ∈ lines →
  in_bounds self (Z.of_nat (length reads)) = true →
  read ∈ reads →
  malformed self read →
  generate_hsv self w output initial_state = (r, s) →
  (∃ e, r = Raise e) ∧ contact_files s = ∅ ∧ db_committed s = false.
Proof.
  intros Hlines Hin Hb Hread Hbad Hrun.
  assert (mapM (parsed self cid) reads = None) as Hps.
  { apply reads_fail_iff. exists read. eauto using malformed_parsed. }
  destruct (generate_hsv_outcome _ _ _ _ _ Hrun) as [_ [(-> & _)|H]]; [|done].
  rewrite generate_hsv_eq, Hlines in Hrun.
  destruct (for_each_malformed self lines (prepared self output initial_state)
              cid reads Hin Hb Hps) as (e & s' & Hloop).
  by rewrite Hloop in Hrun.
Qed.

(** ** Counting the contacts of a cluster *)

Lemma reads_ok_inv self cid reads bins s s1 :
  fold_m (process_read self cid) [] reads s = (Ok bins, s1) →
  ∃ ps, mapM (parsed self cid) reads = Some ps ∧
        bins = cluster_bins ps ∧ s1 = foldl push_parsed s ps.
Proof.
  intros H. destruct (mapM (parsed self cid) reads) as [ps|] eqn:Hps.
  - rewrite (reads_ok _ _ _ _ _ _ Hps) in H. injection H as <- <-. eauto.
  - destruct (reads_fail _ _ _ [] s Hps) as [ps Hf]. congruence.
Qed.

Lemma cluster_bins_NoDup ps : NoDup (fst <$> cluster_bins ps).
Proof. apply add_parsed_NoDup. constructor. Qed.

Lemma filter_all {A} (P : A → Prop) `{!∀ x, Decision (P x)} (l : list A) :
  Forall P l → filter P l = l.
Proof.
  induction 1 as [|x l Hx Hl IH]; [done|].
  by rewrite filter_cons_True, IH.
Qed.

Lemma filter_none {A} (P : A → Prop) `{!∀ x, Decision (P x)} (l : list A) :
  Forall (λ x, ¬ P x) l → filter P l = [].
Proof.
  induction 1 as [|x l Hx Hl IH]; [done|].
  by rewrite filter_cons_False.
Qed.

Lemma filter_bind_none {A B} (P : B → Prop) `{!∀ x, Decision (P x)}
    (f : A → list B) (l : list A) :
  (∀ y, y ∈ l → Forall (λ c, ¬ P c) (f y)) → filter P (l ≫= f) = [].
Proof.
  induction l as [|y l IH]; intros Hall; [done|].
  rewrite bind_cons, filter_app, filter_none, IH; [done| |].
  - intros z Hz. apply Hall. by right.
  - apply Hall. left.
Qed.

(** Filtering a concatenation of blocks of which one satisfies the
    predicate throughout and the others nowhere keeps that block. *)
Lemma filter_bind_one {A B} (P : B → Prop) `{!∀ x, Decision (P x)}
    (f : A → list B) (l : list A) (x : A) :
  NoDup l → x ∈ l → Forall P (f x) →
  (∀ y, y ∈ l → y ≠ x → Forall (λ c, ¬ P c) (f y)) →
  filter P (l ≫= f) = f x.
Proof.
  induction 1 as [|y l Hy Hl IH]; intros Hx HP Hother; [by apply elem_of_nil in Hx|].
  rewrite bind_cons, filter_app.
  apply elem_of_cons in Hx as [->|Hx].
  - rewrite filter_all by done. rewrite filter_bind_none; [by rewrite app_nil_r|].
    intros z Hz. apply Hother; [by right|]. by intros ->.
  - rewrite filter_none, IH; [done..| |].
    + intros z Hz Hne. apply Hother; [by right|done].
    + apply Hother; [left|]. by intros ->.
Qed.

Lemma bins_entry_unique (bins : list (string * list Z)) chrom h h' :
  NoDup (fst <$> bins) → (chrom, h) ∈ bins → (chrom, h') ∈ bins → h = h'.
Proof.
  intros Hnd H1 H2.
  by rewrite <- (bins_get_elem _ _ _ Hnd H1), <- (bins_get_elem _ _ _ Hnd H2).
Qed.

Lemma intra_contacts_of_chrom reads_len bins chrom h :
  NoDup (fst <$> bins) → (chrom, h) ∈ bins →
  filter (λ c, c_chrom1 c = chrom) (intra_contacts reads_len bins) =
    intra_of reads_len (chrom, h).
Proof.
  intros Hnd Hin. unfold intra_contacts.
  apply (filter_bind_one (λ c, c_chrom1 c = chrom)).
  - by apply NoDup_fmap_1 in Hnd.
  - done.
  - apply Forall_forall. by intros c (? & _)%intra_of_elem.
  - intros [chrom' h'] Hin' Hne. apply Forall_forall.
    intros c (Hc & _)%intra_of_elem Heq. simpl in Hc. apply Hne.
    assert (chrom' = chrom) as -> by congruence.
    f_equal. by eapply bins_entry_unique.
Qed.

(** Calls that all append under one key extend the list of that key by
    their lines, in order. *)
Lemma foldl_emit_same_key self cid key (line_of : contact → string) cs cl :
  cs ≠ [] →
  (∀ c cl', c ∈ cs → emit self cid cl' c = store_append key (line_of c) cl') →
  foldl (emit self cid) cl cs = <[key := (cl !!! key) ++ (line_of <$> cs)]> cl.
Proof.
  revert cl. induction cs as [|c cs IH]; intros cl Hne Hemit; [done|].
  simpl. rewrite (Hemit c cl) by left.
  destruct cs as [|c' cs']; [done|].
  rewrite IH; [|done|intros; apply Hemit; by right].
  unfold store_append. rewrite lookup_total_insert_eq, insert_insert_eq.
  by rewrite <- app_assoc.
Qed.

Lemma bins_add_nonempty chrom i bins :
  Forall (λ item, item.2 ≠ []) bins →
  Forall (λ item, item.2 ≠ []) (bins_add chrom i bins).
Proof.
  induction 1 as [|[c h] rest Hh Hrest IH]; simpl.
  - by repeat constructor.
  - case_decide; constructor; simpl in *; try done. by destruct h.
Qed.

Lemma cluster_bins_nonempty ps chrom h :
  (chrom, h) ∈ cluster_bins ps → set_iter h ≠ [].
Proof.
  assert (∀ bins, Forall (λ item : string * list Z, item.2 ≠ []) bins →
            Forall (λ item : string * list Z, item.2 ≠ []) (foldl add_parsed bins ps))
    as Hall.
  { induction ps as [|p ps IH]; intros bins Hb; simpl; [done|].
    apply IH. by apply bins_add_nonempty. }
  intros Hin. specialize (Hall [] (Forall_nil_2 _)).
  rewrite Forall_forall in Hall. specialize (Hall _ Hin). simpl in Hall.
  destruct h as [|x h]; [done|].
  intros Hnil. assert (x ∈ set_iter (x :: h)) as Hx by (apply elem_of_set_iter; left).
  rewrite Hnil in Hx. by apply elem_of_nil in Hx.
Qed.

(** C2, as amended. In a cluster whose read count is within the bounds,
    for a chromosome of the registry whose bin has [k >= 2] positions,
    the intrachromosomal loop makes [k*(k-1)/2] calls of
    [add_contact_to_list] for that chromosome: one for each unordered pair
    of distinct positions of the bin, none twice and none in both orders.
    Each call appends under the key [chrom-chrom] the line of its two
    positions with weight [k], so the loop body for the chromosome extends
    the list of that key by exactly these [k*(k-1)/2] lines. *)
Theorem intrachromosomal_contacts self cid reads bins s s1 chrom h :
  in_bounds self (Z.of_nat (length reads)) = true →
  fold_m (process_read self cid) [] reads s = (Ok bins, s1) →
  (chrom, h) ∈ bins →
  2 ≤ set_len h →
  chrom ∈ _chromosome_list self →
  let k := set_len h in
  let reads_len := Z.of_nat (length reads) in
  let pairs := combinations2 (set_iter h) in
  let emitted := filter (λ c, c_chrom1 c = chrom) (intra_contacts reads_len bins) in
  process_line self (cid :: reads) s =
    (Ok tt, set_contact_lists
              (λ cl, foldl (emit self cid) cl (cluster_contacts reads_len bins)) s1) ∧
  emitted = (λ p, mkContact chrom p.1 chrom p.2 reads_len k) <$> pairs ∧
  Z.of_nat (length emitted) = k * (k - 1) / 2 ∧
  NoDup pairs ∧
  (∀ a b, (a, b) ∈ pairs → a ∈ h ∧ b ∈ h ∧ a ≠ b ∧ (b, a) ∉ pairs) ∧
  (∀ a b, a ∈ h → b ∈ h → a ≠ b → (a, b) ∈ pairs ∨ (b, a) ∈ pairs) ∧
  (∀ c cl, c ∈ emitted →
     emit self cid cl c =
       store_append (contact_key chrom chrom)
         (contact_line (c_start1 c) (c_start2 c) k) cl) ∧
  (∀ cl, intra_chrom self cid reads_len cl (chrom, h) =
     <[contact_key chrom chrom :=
         (cl !!! contact_key chrom chrom)
           ++ ((λ c, contact_line (c_start1 c) (c_start2 c) k) <$> emitted)]> cl).
Proof.
  intros Hb Hreads Hin Hk Hchrom k reads_len pairs emitted.
  apply reads_ok_inv in Hreads as (ps & Hps & -> & ->).
  assert (emitted = (λ p, mkContact chrom p.1 chrom p.2 reads_len k) <$> pairs) as He.
  { unfold emitted.
    rewrite (intra_contacts_of_chrom _ _ chrom h) by auto using cluster_bins_NoDup.
    unfold intra_of. simpl. fold k.
    by destruct (Z.ltb_spec 1 k); [|lia]. }
  pose proof (set_iter_NoDup h) as Hnd.
  split_and!.
  - by apply process_line_ok.
  - done.
  - rewrite He, length_fmap. unfold pairs, k, set_len. apply combinations2_count.
  - by apply combinations2_NoDup.
  - intros a b Hab. pose proof (elem_of_combinations2 _ _ _ Hab) as [Ha Hb'].
    rewrite !elem_of_set_iter in Ha, Hb'. split_and!; [done..| |].
    + by eapply combinations2_distinct.
    + by apply combinations2_oriented.
  - intros a b Ha Hb' Hne. apply combinations2_covers; [..|done];
      by apply elem_of_set_iter.
  - intros c cl. rewrite He. intros ([a b] & -> & _)%list_elem_of_fmap.
    unfold emit. simpl. rewrite add_contact_known by done.
    by rewrite ltb_irrefl.
  - intros cl. rewrite intra_chrom_emit.
    assert (intra_of reads_len (chrom, h) = emitted) as ->.
    { unfold emitted. by rewrite (intra_contacts_of_chrom _ _ chrom h)
        by auto using cluster_bins_NoDup. }
    apply foldl_emit_same_key.
    + intros Hnil. apply (f_equal length) in Hnil.
      pose proof (combinations2_count (set_iter h)) as Hc.
      rewrite He, length_fmap in Hnil. fold pairs in Hc. rewrite Hnil in Hc.
      unfold k, set_len in Hk. simpl in Hc.
      assert (2 ≤ Z.of_nat (length (set_iter h)) * (Z.of_nat (length (set_iter h)) - 1))
        by nia.
      assert (1 ≤ Z.of_nat (length (set_iter h)) * (Z.of_nat (length (set_iter h)) - 1) / 2)
        by (apply Z.div_le_lower_bound; lia).
      lia.
    + intros c cl'. rewrite He. intros ([a b] & -> & _)%list_elem_of_fmap.
      unfold emit. simpl. rewrite add_contact_known by done.
      by rewrite ltb_irrefl.
Qed.

Lemma combinations2_lookup {A} (l : list A) i j a b :
  l !! i = Some a → l !! j = Some b → (i < j)%nat → (a, b) ∈ combinations2 l.
Proof.
  revert i j. induction l as [|x t IH]; intros i j Hi Hj Hlt; [done|].
  apply elem_of_combinations2_cons.
  destruct i as [|i], j as [|j]; try lia; simpl in *.
  - left. injection Hi as ->. split; [done|]. by eapply list_elem_of_lookup_2.
  - right. apply (IH i j); [done..|lia].
Qed.

Lemma inter_of_elem reads_len bins pair c :
  c ∈ inter_of reads_len bins pair →
  c_chrom1 c = pair.1 ∧ c_chrom2 c = pair.2 ∧
  c_inc2 c = set_len (bins_get pair.1 bins) + set_len (bins_get pair.2 bins) ∧
  c_start1 c ∈ set_iter (bins_get pair.1 bins) ∧
  c_start2 c ∈ set_iter (bins_get pair.2 bins).
Proof.
  unfold inter_of.
  intros (start1 & (start2 & -> & H2)%list_elem_of_fmap & H1)%list_elem_of_bind.
  done.
Qed.

Lemma inter_contacts_of_pair reads_len bins a b :
  NoDup (fst <$> bins) → (a, b) ∈ combinations2 (fst <$> bins) →
  filter (λ c, c_chrom1 c = a ∧ c_chrom2 c = b) (inter_contacts reads_len bins) =
    inter_of reads_len bins (a, b).
Proof.
  intros Hnd Hin. unfold inter_contacts.
  destruct (1 <? length bins)%nat eqn:Hlen.
  - apply (filter_bind_one (λ c, c_chrom1 c = a ∧ c_chrom2 c = b)).
    + by apply combinations2_NoDup.
    + done.
    + apply Forall_forall. by intros c (? & ? & _)%inter_of_elem.
    + intros [a' b'] _ Hne. apply Forall_forall.
      intros c (H1 & H2 & _)%inter_of_elem [Ha Hb]. simpl in *. congruence.
  - destruct bins as [|x [|y t]]; simpl in *; try done;
      by apply elem_of_nil in Hin.
Qed.

Lemma inter_contacts_reversed reads_len bins a b :
  NoDup (fst <$> bins) → (a, b) ∈ combinations2 (fst <$> bins) →
  filter (λ c, c_chrom1 c = b ∧ c_chrom2 c = a) (inter_contacts reads_len bins) = [].
Proof.
  intros Hnd Hin. unfold inter_contacts.
  destruct (1 <? length bins)%nat; [|done].
  apply (filter_bind_none (λ c, c_chrom1 c = b ∧ c_chrom2 c = a)).
  intros [a' b'] Hin'. apply Forall_forall.
  intros c (H1 & H2 & _)%inter_of_elem [Ha Hb]. simpl in *.
  apply (combinations2_oriented _ _ _ Hnd Hin). congruence.
Qed.

Lemma cross_length {A B C} (f : A → B → C) (l1 : list A) (l2 : list B) :
  length (l1 ≫= λ x, f x <$> l2) = (length l1 * length l2)%nat.
Proof.
  induction l1 as [|x l1 IH]; [done|].
  rewrite bind_cons, length_app, length_fmap, IH. done.
Qed.

(** C3, as amended. In a cluster whose read count is within the bounds,
    for two chromosomes of the registry present in its bins, the one met
    first with [m] positions and the other with [n], the
    interchromosomal loop makes [m*n] calls of [add_contact_to_list] for
    the pair, one for each position of the first with each position of
    the second, all in that orientation and with weight [m+n]. Each call
    appends one line under the key of the pair, the lexicographically
    smaller chromosome and its position first, so the loop body for the
    pair extends the list of that key by exactly these [m*n] lines. *)
Theorem interchromosomal_contacts self cid reads bins s s1 i j a ha b hb :
  in_bounds self (Z.of_nat (length reads)) = true →
  fold_m (process_read self cid) [] reads s = (Ok bins, s1) →
  bins !! i = Some (a, ha) → bins !! j = Some (b, hb) → (i < j)%nat →
  a ∈ _chromosome_list self → b ∈ _chromosome_list self →
  let m := set_len ha in
  let n := set_len hb in
  let reads_len := Z.of_nat (length reads) in
  let emitted :=
    filter (λ c, c_chrom1 c = a ∧ c_chrom2 c = b) (inter_contacts reads_len bins) in
  process_line self (cid :: reads) s =
    (Ok tt, set_contact_lists
              (λ cl, foldl (emit self cid) cl (cluster_contacts reads_len bins)) s1) ∧
  a ≠ b ∧
  emitted =
    (set_iter ha ≫= λ start1,
       (λ start2, mkContact a start1 b start2 reads_len (m + n)) <$> set_iter hb) ∧
  Z.of_nat (length emitted) = m * n ∧
  (∀ sa sb, sa ∈ ha → sb ∈ hb →
     mkContact a sa b sb reads_len (m + n) ∈ emitted) ∧
  filter (λ c, c_chrom1 c = b ∧ c_chrom2 c = a) (inter_contacts reads_len bins) = [] ∧
  (∀ c cl, c ∈ emitted →
     emit self cid cl c =
       if String.ltb b a
       then store_append (contact_key b a)
              (contact_line (c_start2 c) (c_start1 c) (m + n)) cl
       else store_append (contact_key a b)
              (contact_line (c_start1 c) (c_start2 c) (m + n)) cl) ∧
  (∀ cl, inter_pair self cid reads_len bins cl (a, b) =
     if String.ltb b a
     then <[contact_key b a :=
              (cl !!! contact_key b a)
                ++ ((λ c, contact_line (c_start2 c) (c_start1 c) (m + n)) <$> emitted)]> cl
     else <[contact_key a b :=
              (cl !!! contact_key a b)
                ++ ((λ c, contact_line (c_start1 c) (c_start2 c) (m + n)) <$> emitted)]> cl).
Proof.
  intros Hb Hreads Hi Hj Hlt Ha Hb' m n reads_len emitted.
  apply reads_ok_inv in Hreads as (ps & Hps & -> & ->).
  pose proof (cluster_bins_NoDup ps) as Hnd.
  assert ((a, b) ∈ combinations2 (fst <$> cluster_bins ps)) as Hpair.
  { apply (combinations2_lookup _ i j); [..|done]; rewrite list_lookup_fmap.
    - by rewrite Hi.
    - by rewrite Hj. }
  assert (bins_get a (cluster_bins ps) = ha) as Hga.
  { apply bins_get_elem; [done|]. by eapply list_elem_of_lookup_2. }
  assert (bins_get b (cluster_bins ps) = hb) as Hgb.
  { apply bins_get_elem; [done|]. by eapply list_elem_of_lookup_2. }
  assert (emitted =
    (set_iter ha ≫= λ start1,
       (λ start2, mkContact a start1 b start2 reads_len (m + n)) <$> set_iter hb))
    as He.
  { unfold emitted. rewrite inter_contacts_of_pair by done.
    unfold inter_of. simpl. by rewrite Hga, Hgb. }
  split_and!.
  - by apply process_line_ok.
  - by eapply combinations2_distinct.
  - done.
  - rewrite He, cross_length. unfold m, n, set_len. lia.
  - intros sa sb Hsa Hsb. rewrite He. apply list_elem_of_bind.
    exists sa. split; [|by apply elem_of_set_iter].
    apply list_elem_of_fmap. exists sb. split; [done|]. by apply elem_of_set_iter.
  - by apply inter_contacts_reversed.
  - intros c cl. rewrite He.
    intros (sa & (sb & -> & _)%list_elem_of_fmap & _)%list_elem_of_bind.
    unfold emit. simpl. by rewrite add_contact_known.
  - intros cl. rewrite inter_pair_emit.
    assert (inter_of reads_len (cluster_bins ps) (a, b) = emitted) as ->.
    { unfold emitted. by rewrite inter_contacts_of_pair. }
    assert (emitted ≠ []) as Hne.
    { intros Hnil. apply (f_equal length) in Hnil.
      rewrite He, cross_length in Hnil. simpl in Hnil.
      assert (set_iter ha ≠ []) as Hna
        by (eapply cluster_bins_nonempty, list_elem_of_lookup_2; exact Hi).
      assert (set_iter hb ≠ []) as Hnb
        by (eapply cluster_bins_nonempty, list_elem_of_lookup_2; exact Hj).
      destruct (set_iter ha), (set_iter hb); simpl in *; try done; lia. }
    destruct (String.ltb b a) eqn:Hba.
    + apply foldl_emit_same_key; [done|].
      intros c cl'. rewrite He.
      intros (sa & (sb & -> & _)%list_elem_of_fmap & _)%list_elem_of_bind.
      unfold emit. simpl. by rewrite add_contact_known, Hba.
    + apply foldl_emit_same_key; [done|].
      intros c cl'. rewrite He.
      intros (sa & (sb & -> & _)%list_elem_of_fmap & _)%list_elem_of_bind.
      unfold emit. simpl. by rewrite add_contact_known, Hba.
Qed.

End Properties.

(** * Further properties of the code *)

Section Coverage.

Context {rt : Runtime} {rt_laws : RuntimeLaws}.

(** ** Splitting, read back *)

Lemma rsplit_once_None sep s : rsplit_once sep s = None → has_char sep s = false.
Proof.
  induction s as [|a s IH]; simpl; [done|].
  destruct (rsplit_once sep s) as [[l r]|]; [done|].
  destruct (Ascii.eqb a sep); [done|]. intros _. by rewrite IH.
Qed.

Lemma rsplit_once_Some sep s l r :
  rsplit_once sep s = Some (l, r) → s = l +:+ String sep r ∧ has_char sep r = false.
Proof.
  revert l. induction s as [|a s IH]; intros l; simpl; [done|].
  destruct (rsplit_once sep s) as [[l' r']|] eqn:Hs.
  - intros [= <- <-]. destruct (IH l' eq_refl) as [-> Hr].
    by rewrite string_app_cons.
  - destruct (Ascii.eqb a sep) eqn:Ha; [|done]. intros [= <- <-].
    apply Ascii.eqb_eq in Ha as ->. rewrite string_app_empty.
    split; [done|]. by apply rsplit_once_None.
Qed.

Lemma split_once_Some sep s l r :
  split_once sep s = Some (l, r) → s = l +:+ String sep r ∧ has_char sep l = false.
Proof.
  revert l. induction s as [|a s IH]; intros l; simpl; [done|].
  destruct (Ascii.eqb a sep) eqn:Ha.
  - intros [= <- <-]. apply Ascii.eqb_eq in Ha as ->. by rewrite string_app_empty.
  - destruct (split_once sep s) as [[l' r']|]; [|done]. intros [= <- <-].
    destruct (IH l' eq_refl) as [-> Hl]. rewrite string_app_cons. simpl.
    by rewrite Ha, Hl.
Qed.

Lemma split_char_one sep s p :
  split_char sep s = [p] → p = s ∧ has_char sep s = false.
Proof.
  revert p. induction s as [|a s IH]; intros p; simpl; [by intros [= <-]|].
  destruct (Ascii.eqb a sep) eqn:Ha.
  - intros [= _ H]. by destruct (split_char_nonempty sep s).
  - destruct (split_char sep s) as [|q qs] eqn:Hq.
    { by destruct (split_char_nonempty sep s). }
    intros [= <- ->]. destruct (IH q eq_refl) as [-> Hs]. by rewrite Hs.
Qed.

Lemma split_char_two sep s a b :
  split_char sep s = [a; b] ↔
  s = a +:+ String sep b ∧ has_char sep a = false ∧ has_char sep b = false.
Proof.
  split.
  - revert a. induction s as [|c s IH]; intros a; simpl; [done|].
    destruct (Ascii.eqb c sep) eqn:Hc.
    + intros [= <- H]. apply split_char_one in H as [-> Hs].
      apply Ascii.eqb_eq in Hc as ->. by rewrite string_app_empty.
    + destruct (split_char sep s) as [|q qs] eqn:Hq; [done|].
      intros [= <- ->]. destruct (IH q eq_refl) as (-> & Hq' & Hb).
      rewrite string_app_cons. simpl. by rewrite Hc, Hq'.
  - intros (-> & Ha & Hb).
    by rewrite (split_char_first _ _ _ Ha), (split_char_absent _ _ Hb).
Qed.

(** X1. [parse_full] accepts exactly the reads
    [name_chrom:start-end] in which the part after the last underscore
    holds one [:] and, after it, one [-]; it returns the three fields, from
    which, with the name, the read is put together again. *)
Theorem parse_full_shape read chrom start end_ :
  parse_full read = Some (chrom, start, end_) ↔
  ∃ name,
    read = name +:+ "_" +:+ chrom +:+ ":" +:+ start +:+ "-" +:+ end_ ∧
    has_char "_" chrom = false ∧ has_char "_" start = false ∧
    has_char "_" end_ = false ∧
    has_char ":" chrom = false ∧ has_char ":" start = false ∧
    has_char ":" end_ = false ∧
    has_char "-" start = false ∧ has_char "-" end_ = false.
Proof.
  split.
  - unfold parse_full.
    destruct (rsplit_once "_" read) as [[name coord]|] eqn:Hr; [|done].
    apply rsplit_once_Some in Hr as [-> Hu].
    destruct (split_char ":" coord) as [|c [|position [|]]] eqn:Hc; try done.
    apply split_char_two in Hc as (-> & Hcc & Hcp).
    destruct (split_char "-" position) as [|st [|en [|]]] eqn:Hp; try done.
    apply split_char_two in Hp as (-> & Hds & Hde).
    intros [= -> -> ->]. exists name.
    rewrite !has_char_app in Hu. simpl in Hu.
    rewrite !has_char_app in Hu. simpl in Hu.
    rewrite has_char_app in Hcp. simpl in Hcp.
    apply orb_false_iff in Hu as [Hu1 [Hu2 Hu3]%orb_false_iff].
    apply orb_false_iff in Hcp as [Hc1 Hc2].
    split_and!; done.
  - intros (name & -> & Hu1 & Hu2 & Hu3 & Hc1 & Hc2 & Hc3 & Hd1 & Hd2).
    apply parse_full_fields; try done.
    change (":" +:+ ?x) with (String ":" x).
    change ("-" +:+ ?x) with (String "-" x).
    rewrite has_char_app. simpl. rewrite has_char_app. simpl.
    by rewrite Hu1, Hu2, Hu3.
Qed.

(** X2. [parse_start_only] accepts exactly the reads that hold a [:] and
    splits at the first one: the chromosome holds no [:], the start is all
    that follows, further [:] included. *)
Theorem parse_start_only_shape read chrom start :
  parse_start_only read = Some (chrom, start) ↔
  read = chrom +:+ ":" +:+ start ∧ has_char ":" chrom = false.
Proof.
  unfold parse_start_only. split.
  - by intros ?%split_once_Some.
  - intros [-> Hc]. by apply split_once_first.
Qed.

(** ** Keys and lines, read back *)


Lemma pretty_N_go_chars c x s :
  (∀ d, (d < 10)%N → pretty_N_char d ≠ c) →
  has_char c (pretty_N_go x s) = has_char c s.
Proof.
  intros Hc. revert s. induction (N.lt_wf_0 x) as [x _ IH]; intros s.
  destruct (decide (x = 0)%N) as [->|Hx]; [by rewrite pretty_N_go_0|].
  rewrite pretty_N_go_step by lia. rewrite IH by (apply N.div_lt; lia).
  simpl. destruct (Ascii.eqb_spec (pretty_N_char (x `mod` 10)) c) as [Heq|]; [|done].
  destruct (Hc (x `mod` 10)%N); [|done]. apply N.mod_lt. lia.
Qed.

Lemma pretty_N_chars c (x : N) :
  (∀ d, (d < 10)%N → pretty_N_char d ≠ c) → has_char c (pretty x) = false.
Proof.
  intros Hc. unfold pretty, pretty_N. case_decide.
  - cbn [has_char]. destruct (Ascii.eqb_spec "0" c) as [Heq|]; [|done].
    exfalso. by apply (Hc 0%N).
  - by rewrite pretty_N_go_chars.
Qed.

Lemma pretty_Z_chars c (z : Z) :
  (∀ d, (d < 10)%N → pretty_N_char d ≠ c) → c ≠ "-"%char →
  has_char c (pretty z) = false.
Proof.
  intros Hc Hm. unfold pretty, pretty_Z. destruct z as [|p|p].
  - cbn [has_char]. destruct (Ascii.eqb_spec "0" c) as [Heq|]; [|done].
    exfalso. by apply (Hc 0%N).
  - by apply (pretty_N_chars c (N.pos p)).
  - change ("-" +:+ ?x) with (String "-" x). cbn [has_char].
    destruct (Ascii.eqb_spec "-" c) as [Heq|]; [by destruct Hm|].
    by apply (pretty_N_chars c (N.pos p)).
Qed.

Lemma not_digit_char c :
  (nat_of_ascii c < 48 ∨ 57 < nat_of_ascii c)%nat →
  ∀ d, (d < 10)%N → pretty_N_char d ≠ c.
Proof.
  intros Hc d Hd <-. revert Hc.
  assert (d = 0 ∨ d = 1 ∨ d = 2 ∨ d = 3 ∨ d = 4 ∨ d = 5 ∨ d = 6 ∨ d = 7
          ∨ d = 8 ∨ d = 9)%N as Hcases by lia.
  repeat destruct Hcases as [->|Hcases]; try subst d;
    intros Hc; vm_compute in Hc; lia.
Qed.

Lemma pretty_no_comma (z : Z) : has_char "," (pretty z) = false.
Proof.
  apply pretty_Z_chars; [|done].
  apply not_digit_char. left. vm_compute. repeat constructor.
Qed.


(** X4. A contact line splits at its commas into exactly its three
    decimal fields, so it determines the two positions and the weight: two
    contacts with the same line are the same. *)
Theorem contact_line_read_back start1 start2 inc2 :
  split_char "," (contact_line start1 start2 inc2)
    = [pretty start1; pretty start2; pretty inc2] ∧
  ∀ start1' start2' inc2',
    contact_line start1 start2 inc2 = contact_line start1' start2' inc2' →
    start1 = start1' ∧ start2 = start2' ∧ inc2 = inc2'.
Proof.
  assert (∀ a b c : Z, split_char "," (contact_line a b c)
                       = [pretty a; pretty b; pretty c]) as Hsplit.
  { intros a b c. unfold contact_line.
    change (split_char "," (pretty a +:+ String "," (pretty b +:+ String "," (pretty c)))
            = [pretty a; pretty b; pretty c]).
    rewrite (split_char_first _ _ _ (pretty_no_comma a)).
    rewrite (split_char_first _ _ _ (pretty_no_comma b)).
    by rewrite (split_char_absent _ _ (pretty_no_comma c)). }
  split; [apply Hsplit|].
  intros a b c Heq. apply (f_equal (split_char ",")) in Heq.
  rewrite !Hsplit in Heq. injection Heq as H1 H2 H3.
  split_and!; by apply (inj pretty).
Qed.

(** ** What a run leaves, whatever its outcome *)

Lemma same_outputs_refl s : same_outputs s s.
Proof. by repeat split. Qed.

Lemma same_outputs_trans s1 s2 s3 :
  same_outputs s1 s2 → same_outputs s2 s3 → same_outputs s1 s3.
Proof.
  intros (? & ? & ? & ? & ?) (? & ? & ? & ? & ?). repeat split; congruence.
Qed.

Lemma push_parsed_frame ps s :
  contact_lists (foldl push_parsed s ps) = contact_lists s ∧
  same_outputs s (foldl push_parsed s ps).
Proof.
  revert s. induction ps as [|p ps IH]; intros s; simpl.
  - split; [done|apply same_outputs_refl].
  - destruct (IH (push_parsed s p)) as [Hc Hs]. split; [by rewrite Hc|].
    eapply same_outputs_trans; [|exact Hs]. by repeat split.
Qed.

Lemma process_line_frame self line s :
  same_outputs s (process_line self line s).2.
Proof.
  destruct (process_line_cases self line s)
    as [[-> _]|[[-> _]|[(cid & reads & ps & _ & _ & _ & ->)
                       |(cid & reads & ps & _ & _ & _ & ->)]]]; simpl;
    try apply same_outputs_refl; apply push_parsed_frame.
Qed.

Lemma for_each_frame self lines s :
  same_outputs s (for_each (process_line self) lines s).2.
Proof.
  revert s. induction lines as [|line lines IH]; intros s; simpl.
  - apply same_outputs_refl.
  - unfold bind. pose proof (process_line_frame self line s) as H.
    destruct (process_line self line s) as [[[]|e] s1]; simpl in *; [|done].
    eapply same_outputs_trans; [exact H|apply IH].
Qed.

Lemma process_line_accepted self line s :
  (∃ s', process_line self line s = (Ok tt, s')) ↔ accepted self line.
Proof.
  unfold accepted. destruct line as [|cid reads].
  - split; [by intros [s' [=]]|]. by intros (? & ? & [=] & _).
  - destruct (in_bounds self (Z.of_nat (length reads))) eqn:Hb.
    + destruct (mapM (parsed self cid) reads) as [ps|] eqn:Hps.
      * rewrite (process_line_ok _ _ _ ps) by done. split; [|by eauto].
        intros _. exists cid, reads. split; [done|]. intros _ read Hread.
        assert (is_Some (mapM (parsed self cid) reads)) as Hs by eauto.
        apply mapM_is_Some in Hs. rewrite Forall_forall in Hs. by apply Hs.
      * destruct (process_line_fail self cid reads s Hb Hps) as [ps ->].
        split; [by intros [s' [=]]|].
        intros (cid' & reads' & [= <- <-] & Hall). exfalso.
        assert (is_Some (mapM (parsed self cid) reads)) as [ps' Hs].
        { apply mapM_is_Some, Forall_forall. intros read Hread.
          by apply Hall; [rewrite Hb|]. }
        congruence.
    + rewrite process_line_skip by done. split; [|by eauto].
      intros _. exists cid, reads. split; [done|]. by rewrite Hb.
Qed.

Lemma for_each_accepted self lines s :
  (∃ s', for_each (process_line self) lines s = (Ok tt, s')) ↔
  Forall (accepted self) lines.
Proof.
  revert s. induction lines as [|line lines IH]; intros s; simpl.
  - split; [done|]. by eauto.
  - rewrite Forall_cons. rewrite <- (process_line_accepted self line s).
    unfold bind. destruct (process_line self line s) as [[[]|e] s1] eqn:Hl.
    + rewrite (IH s1). split; [by eauto|]. by intros [_ ?].
    + split; [by intros [s' [=]]|]. by intros [[s' [=]] _].
Qed.

(** X5. The loop of [generate_hsv] over the lines of the cluster file
    runs to its end exactly when none of the lines is blank and every read
    of every cluster within the bounds is one that [process_read] takes;
    the reads of the clusters outside the bounds are not looked at. So a
    run that returns has opened the cluster file and found all its lines
    so, and a run over a file with another line raises with no contact
    file written and nothing committed. Whether a run whose loop ends also
    returns is up to the files [write_contact_files] opens, on which this
    is silent. *)
Theorem loop_completes_iff self w output :
  (∀ lines s, (∃ s', for_each (process_line self) lines s = (Ok tt, s')) ↔
              Forall (accepted self) lines) ∧
  (∀ s, generate_hsv self w output initial_state = (Ok tt, s) →
        ∃ lines, file_lines w (_cluster_file self) = Some lines ∧
                 Forall (accepted self) lines) ∧
  (∀ lines, file_lines w (_cluster_file self) = Some lines →
            ¬ Forall (accepted self) lines →
            ∃ e s, generate_hsv self w output initial_state = (Raise e, s) ∧
                   contact_files s = ∅ ∧ db_committed s = false).
Proof.
  split_and!.
  - intros lines s. apply for_each_accepted.
  - intros s. rewrite generate_hsv_eq.
    destruct (file_lines w (_cluster_file self)) as [lines|]; [|done].
    pose proof (for_each_accepted self lines (prepared self output initial_state))
      as Hacc.
    destruct (for_each _ _ _) as [[[]|e] s2]; [|done].
    intros _. exists lines. split; [done|]. apply Hacc. eauto.
  - intros lines Hlines Hnot. rewrite generate_hsv_eq, Hlines.
    pose proof (for_each_accepted self lines (prepared self output initial_state))
      as Hacc.
    pose proof (for_each_frame self lines (prepared self output initial_state))
      as (_ & _ & _ & Hc & Hf).
    destruct (for_each _ _ _) as [[[]|e] s2].
    + exfalso. apply Hnot, Hacc. eauto.
    + exists e, s2. simpl in *. by rewrite Hc, Hf.
Qed.

Lemma init_fields w cluster_file genomic_size_file max_cluster min_cluster start_only
    text members chroms :
  file_text w genomic_size_file = Some text →
  json_load text = Some (JObj members) →
  dict_get "chromosomes" members = Some (JObj chroms) →
  SpriteVisu_init w cluster_file genomic_size_file max_cluster min_cluster start_only
    = Ok (mkSpriteVisu cluster_file max_cluster min_cluster start_only
            (JObj members) (fst <$> chroms)).
Proof. intros Ht Hj Hc. unfold SpriteVisu_init. rewrite Ht, Hj. simpl. by rewrite Hc. Qed.

Lemma generate_hsv_setup self w output r s :
  generate_hsv self w output initial_state = (r, s) →
  dirs_made s = [output] ∧ meta_json s = Some (_genomic_sizes self) ∧
  db_file s = Some (db_name self).
Proof.
  rewrite generate_hsv_eq.
  destruct (file_lines w (_cluster_file self)) as [lines|].
  - pose proof (for_each_frame self lines (prepared self output initial_state))
      as (Hd & Hm & Hf & _).
    destruct (for_each _ _ _) as [[[]|e] s2]; intros [= <- <-]; simpl in *;
      by rewrite Hd, Hm, Hf.
  - by intros [= <- <-].
Qed.

(** X6. Once the size reference is loaded, [main] creates the output
    directory, writes the loaded document unchanged to [meta.json] and
    creates the database named after the mode, before it opens the cluster
    file: all three are there whatever the outcome. When the cluster file
    cannot be opened, the run ends in [OSError] with these three and
    nothing else: no row, no commit, no contact file. *)
Theorem metadata_written_verbatim w args text members chroms r s :
  file_text w (genomic_size args) = Some text →
  json_load text = Some (JObj members) →
  dict_get "chromosomes" members = Some (JObj chroms) →
  main args w = (r, s) →
  meta_json s = Some (JObj members) ∧
  dirs_made s = [heatmap_spritevisu_output args] ∧
  db_file s = Some (if start_only args then "cluster_id_reads-startonly.db"
                    else "cluster_id_reads.db") ∧
  (file_lines w (clusters args) = None →
   r = Raise OSError ∧ db_rows s = [] ∧ db_committed s = false ∧
   contact_files s = ∅ ∧ contact_lists s = ∅).
Proof.
  intros Ht Hj Hc. unfold main.
  rewrite (init_fields _ _ _ _ _ _ _ _ _ Ht Hj Hc). intros Hrun.
  destruct (generate_hsv_setup _ _ _ _ _ Hrun) as (Hd & Hm & Hf). simpl in *.
  split_and!; [done..|].
  intros Hnone. rewrite generate_hsv_eq in Hrun. simpl in Hrun.
  rewrite Hnone in Hrun. by injection Hrun as <- <-.
Qed.

Lemma dict_get_keys key (members : list (string * json)) :
  key ∈ fst <$> members ↔ is_Some (dict_get key members).
Proof.
  induction members as [|[k v] rest IH]; simpl.
  - split; [by intros ?%elem_of_nil|by intros [? [=]]].
  - rewrite elem_of_cons. case_decide as Hk.
    + split; [by eauto|]. intros _. by left.
    + rewrite IH. split; [|by right]. intros [?|?]; [|done].
      simpl in *. congruence.
Qed.

Lemma store_append_changes key line (cl : gmap string (list string)) :
  store_append key line cl ≠ cl.
Proof.
  intros Heq. apply (f_equal (λ m, length (m !!! key))) in Heq.
  unfold store_append in Heq. rewrite lookup_total_insert_eq, length_app in Heq.
  simpl in Heq. lia.
Qed.

(** X7. The registry of the object is the key set of the object's
    ["chromosomes"] member, and the bounds and the mode are those given:
    a contact is kept exactly when both its chromosomes are keys there, and
    left out, the store unchanged, otherwise. *)
Theorem registry_is_key_set w cluster_file genomic_size_file max_cluster
    min_cluster start_only text members chroms :
  file_text w genomic_size_file = Some text →
  json_load text = Some (JObj members) →
  dict_get "chromosomes" members = Some (JObj chroms) →
  ∃ self,
    SpriteVisu_init w cluster_file genomic_size_file max_cluster min_cluster
      start_only = Ok self ∧
    _max_cluster_size self = max_cluster ∧ _min_cluster_size self = min_cluster ∧
    _start_only self = start_only ∧ _cluster_file self = cluster_file ∧
    (∀ chrom, chrom ∈ _chromosome_list self ↔ is_Some (dict_get chrom chroms)) ∧
    (∀ cid chrom1 start1 chrom2 start2 inc1 inc2 cl,
       add_contact_to_list self cid chrom1 start1 chrom2 start2 inc1 inc2 cl ≠ cl ↔
       is_Some (dict_get chrom1 chroms) ∧ is_Some (dict_get chrom2 chroms)).
Proof.
  intros Ht Hj Hc. eexists. split; [by apply (init_fields _ _ _ _ _ _ text)|]. simpl.
  split_and!; [done..| |].
  - intros chrom. apply dict_get_keys.
  - intros cid chrom1 start1 chrom2 start2 inc1 inc2 cl.
    rewrite <- !dict_get_keys.
    set (self := mkSpriteVisu _ _ _ _ _ _).
    change (fst <$> chroms) with (_chromosome_list self).
    destruct (decide (chrom1 ∈ _chromosome_list self)) as [H1|H1];
      [|rewrite add_contact_unknown by auto; split; [done|by intros [? _]]].
    destruct (decide (chrom2 ∈ _chromosome_list self)) as [H2|H2];
      [|rewrite add_contact_unknown by auto; split; [done|by intros [_ ?]]].
    rewrite add_contact_known by done. split; [done|]. intros _.
    destruct (String.ltb chrom2 chrom1); apply store_append_changes.
Qed.

(** ** The store and the table only grow *)

Lemma add_contact_prefix self cid chrom1 start1 chrom2 start2 inc1 inc2 cl key :
  (cl !!! key) `prefix_of`
    (add_contact_to_list self cid chrom1 start1 chrom2 start2 inc1 inc2 cl !!! key).
Proof.
  assert (∀ k l, (cl !!! key) `prefix_of` (store_append k l cl !!! key)) as Happ.
  { intros k l. unfold store_append. destruct (decide (k = key)) as [->|Hne].
    - rewrite lookup_total_insert_eq. by apply prefix_app_r.
    - by rewrite lookup_total_insert_ne. }
  destruct (decide (chrom1 ∈ _chromosome_list self)) as [H1|H1];
    [|by rewrite add_contact_unknown by auto].
  destruct (decide (chrom2 ∈ _chromosome_list self)) as [H2|H2];
    [|by rewrite add_contact_unknown by auto].
  rewrite add_contact_known by done. destruct (String.ltb chrom2 chrom1); apply Happ.
Qed.

Lemma emit_prefix self cid cs cl key :
  (cl !!! key) `prefix_of` (foldl (emit self cid) cl cs !!! key).
Proof.
  revert cl. induction cs as [|c cs IH]; intros cl; simpl; [done|].
  etrans; [|apply IH]. apply add_contact_prefix.
Qed.

Lemma process_line_grows self line s :
  (∀ key, (contact_lists s !!! key)
            `prefix_of` (contact_lists (process_line self line s).2 !!! key)) ∧
  db_rows s `prefix_of` db_rows (process_line self line s).2.
Proof.
  destruct (process_line_cases self line s)
    as [[-> _]|[[-> _]|[(cid & reads & ps & _ & _ & _ & ->)
                       |(cid & reads & ps & _ & _ & _ & ->)]]]; simpl; try done.
  - destruct (push_parsed_frame ps s) as [-> _]. split; [done|].
    rewrite push_parsed_db_rows. by apply prefix_app_r.
  - destruct (push_parsed_frame ps s) as [-> _]. split; [intros; apply emit_prefix|].
    rewrite push_parsed_db_rows. by apply prefix_app_r.
Qed.

(** X8. The store and the table are append-only. Over any part of the
    cluster file, whether the loop ends or raises, every key keeps the
    lines it had, in their order, as the beginning of its list, and the
    table keeps its rows as the beginning of its rows; contacts met again
    in a later cluster are appended again. Nothing else of the state
    changes in the loop. *)
Theorem store_and_table_append_only self lines s :
  (∀ key, (contact_lists s !!! key) `prefix_of`
            (contact_lists (for_each (process_line self) lines s).2 !!! key)) ∧
  db_rows s `prefix_of` db_rows (for_each (process_line self) lines s).2 ∧
  same_outputs s (for_each (process_line self) lines s).2.
Proof.
  split_and!; [| |apply for_each_frame].
  - revert s. induction lines as [|line lines IH]; intros s key; simpl; [done|].
    unfold bind. destruct (process_line_grows self line s) as [H _].
    specialize (H key).
    destruct (process_line self line s) as [[[]|e] s1]; simpl in *; [|done].
    etrans; [exact H|apply IH].
  - revert s. induction lines as [|line lines IH]; intros s; simpl; [done|].
    unfold bind. destruct (process_line_grows self line s) as [_ H].
    destruct (process_line self line s) as [[[]|e] s1]; simpl in *; [|done].
    etrans; [exact H|apply IH].
Qed.

(** X9. A cluster file in which no cluster is within the bounds, the
    empty file among them, is processed to the end: the run completes and
    commits with an empty table, an empty store and no contact file. *)
Theorem no_cluster_within_bounds self w output lines :
  file_lines w (_cluster_file self) = Some lines →
  Forall (λ line, line ≠ [] ∧
                  in_bounds self (Z.of_nat (length (reads_of line))) = false) lines →
  ∃ s, generate_hsv self w output initial_state = (Ok tt, s) ∧
       db_rows s = [] ∧ contact_lists s = ∅ ∧ contact_files s = ∅ ∧
       db_committed s = true.
Proof.
  intros Hlines Hall. rewrite generate_hsv_eq, Hlines.
  assert (∀ s, for_each (process_line self) lines s = (Ok tt, s)) as Hloop.
  { clear Hlines. induction Hall as [|line lines' [Hne Hb] _ IH]; intros s; [done|].
    destruct line as [|cid reads]; [done|]. simpl in Hb.
    cbn [for_each]. unfold bind. rewrite process_line_skip by done. apply IH. }
  rewrite Hloop. eexists. split; [done|]. simpl. by split_and!.
Qed.

(** ** The rows of the table *)

Lemma parsed_elem (f : string → option (string * Z * row)) reads ps p :
  Forall2 (λ read p, f read = Some p) reads ps →
  p ∈ ps ↔ ∃ read, read ∈ reads ∧ f read = Some p.
Proof.
  induction 1 as [|read p' reads ps Hp _ IH].
  - split; [by intros ?%elem_of_nil|by intros (? & ?%elem_of_nil & _)].
  - rewrite elem_of_cons, IH. split.
    + intros [->|(r & ? & ?)]; [exists read; split; [left|done]|].
      exists r. split; [by right|done].
    + intros (r & [->|?]%elem_of_cons & Hr); [left; congruence|right; eauto].
Qed.

Lemma for_each_rows_elem self lines s s' r :
  for_each (process_line self) lines s = (Ok tt, s') →
  r ∈ db_rows s' ↔
  r ∈ db_rows s ∨
  ∃ cid reads read p,
    (cid :: reads) ∈ lines ∧ in_bounds self (Z.of_nat (length reads)) = true ∧
    read ∈ reads ∧ parsed self cid read = Some p ∧ r = p.2.
Proof.
  revert s. induction lines as [|line lines IH]; intros s.
  - intros [= <-]. split; [by left|].
    by intros [?|(? & ? & ? & ? & ?%elem_of_nil & _)].
  - simpl. unfold bind.
    destruct (process_line_cases self line s)
      as [[-> _]|[[-> Hb]|[(cid & reads & ps & _ & _ & _ & ->)
                          |(cid & reads & ps & -> & Hb & Hps & ->)]]]; try done.
    + intros ->%IH. split.
      * intros [?|(cid & reads & read & p & Hin & ?)]; [by left|].
        right. exists cid, reads, read, p. split; [by right|done].
      * intros [?|(cid & reads & read & p & [<-|Hin]%elem_of_cons & Hb' & ?)];
          [by left| |right; by eauto 10].
        simpl in Hb. congruence.
    + intros ->%IH. simpl. rewrite push_parsed_db_rows, elem_of_app.
      apply mapM_Some in Hps.
      rewrite list_elem_of_fmap. split.
      * intros [[?|(p & -> & Hp)]|(cid' & reads' & read & p & Hin & ?)].
        -- by left.
        -- apply (parsed_elem _ _ _ _ Hps) in Hp as (read & ? & ?).
           right. exists cid, reads, read, p. split; [left|done].
        -- right. exists cid', reads', read, p. split; [by right|done].
      * intros [?|(cid' & reads' & read & p & [[= -> ->]|Hin]%elem_of_cons
                   & Hb' & Hread & Hp & ->)].
        -- by left; left.
        -- left. right. exists p. split; [done|].
           apply (parsed_elem _ _ _ _ Hps). eauto.
        -- right. by eauto 10.
Qed.

Lemma run_rows self w output lines s r :
  file_lines w (_cluster_file self) = Some lines →
  generate_hsv self w output initial_state = (Ok tt, s) →
  Forall (accepted self) lines ∧
  length (db_rows s) = bounded_reads self lines ∧
  (r ∈ db_rows s ↔
   ∃ cid reads read p,
     (cid :: reads) ∈ lines ∧ in_bounds self (Z.of_nat (length reads)) = true ∧
     read ∈ reads ∧ parsed self cid read = Some p ∧ r = p.2).
Proof.
  intros Hlines. rewrite generate_hsv_eq, Hlines.
  destruct (for_each _ _ _) as [[[]|e] s2] eqn:Hloop; [|done].
  intros [= <-]. simpl. split_and!.
  - apply (for_each_accepted self lines (prepared self output initial_state)). eauto.
  - by apply for_each_rows in Hloop as (rows & -> & <- & _).
  - rewrite (for_each_rows_elem _ _ _ _ r Hloop). simpl. split; [|by right].
    by intros [?%elem_of_nil|?].
Qed.

Lemma accepted_read self lines cid reads read :
  Forall (accepted self) lines → (cid :: reads) ∈ lines →
  in_bounds self (Z.of_nat (length reads)) = true → read ∈ reads →
  is_Some (parsed self cid read).
Proof.
  intros Hall Hin Hb Hread. rewrite Forall_forall in Hall.
  destruct (Hall _ Hin) as (cid' & reads' & [= <- <-] & H). by apply H.
Qed.

(** X10. In a full-mode run that completes, the [INSERT] statement is
    executed with the values [(chrom, start, end, cluster_id)] exactly when
    some cluster within the bounds has that identifier and a read whose
    three fields are these: start and end are bound as the strings of the
    read (what the columns of the table make of them is the database's
    doing), and no read of such a cluster is left out. *)
Theorem rows_of_full_mode self w output lines s chrom start end_ cid :
  _start_only self = false →
  file_lines w (_cluster_file self) = Some lines →
  generate_hsv self w output initial_state = (Ok tt, s) →
  Row4 chrom start end_ cid ∈ db_rows s ↔
  ∃ reads read,
    (cid :: reads) ∈ lines ∧ in_bounds self (Z.of_nat (length reads)) = true ∧
    read ∈ reads ∧ parse_full read = Some (chrom, start, end_).
Proof.
  intros Hfull Hlines Hrun.
  destruct (run_rows _ _ _ _ _ (Row4 chrom start end_ cid) Hlines Hrun)
    as (Hacc & _ & ->).
  split.
  - intros (cid' & reads & read & p & Hin & Hb & Hread & Hp & Hr).
    unfold parsed in Hp. rewrite Hfull in Hp. simpl in Hp.
    destruct (parse_full read) as [[[c st] en]|] eqn:Hpf; [|done].
    destruct (py_int st); [|done]. injection Hp as <-. simpl in Hr.
    injection Hr as -> -> -> ->. by exists reads, read.
  - intros (reads & read & Hin & Hb & Hread & Hpf).
    destruct (accepted_read _ _ _ _ _ Hacc Hin Hb Hread) as [p Hp].
    exists cid, reads, read, p. split_and!; try done.
    unfold parsed in Hp. rewrite Hfull, Hpf in Hp. simpl in Hp.
    destruct (py_int start); [|done]. by injection Hp as <-.
Qed.

(** X11. In a start-only run that completes, the database is
    [cluster_id_reads-startonly.db], its rows have the three columns
    [(chrom, start, cluster_id)], they are as many as the reads of the
    clusters within the bounds, and a row is there exactly when such a
    cluster has that identifier and a read that splits at its first [:]
    into this chromosome and this start. *)
Theorem rows_of_start_only_mode self w output lines s :
  _start_only self = true →
  file_lines w (_cluster_file self) = Some lines →
  generate_hsv self w output initial_state = (Ok tt, s) →
  db_file s = Some "cluster_id_reads-startonly.db" ∧
  length (db_rows s) = bounded_reads self lines ∧
  (∀ r, r ∈ db_rows s → ∃ chrom start cid, r = Row3 chrom start cid) ∧
  (∀ chrom start cid,
     Row3 chrom start cid ∈ db_rows s ↔
     ∃ reads read,
       (cid :: reads) ∈ lines ∧ in_bounds self (Z.of_nat (length reads)) = true ∧
       read ∈ reads ∧ parse_start_only read = Some (chrom, start)).
Proof.
  intros Hmode Hlines Hrun.
  assert (∀ cid read p, parsed self cid read = Some p →
            ∃ chrom start i, parse_start_only read = Some (chrom, start) ∧
                             p = (chrom, i, Row3 chrom start cid)) as Hparsed.
  { intros cid read p. unfold parsed. rewrite Hmode. simpl.
    destruct (parse_start_only read) as [[c st]|]; [|done].
    destruct (py_int st) as [i|]; [|done]. intros [= <-]. eauto. }
  split_and!.
  - destruct (generate_hsv_setup _ _ _ _ _ Hrun) as (_ & _ & ->).
    unfold db_name. by rewrite Hmode.
  - by destruct (run_rows _ _ _ _ _ (Row3 "" "" "") Hlines Hrun) as (_ & ? & _).
  - intros r Hr.
    destruct (run_rows _ _ _ _ _ r Hlines Hrun) as (_ & _ & Hiff).
    apply Hiff in Hr as (cid & reads & read & p & _ & _ & _ & Hp & ->).
    apply Hparsed in Hp as (chrom & start & i & _ & ->). eauto.
  - intros chrom start cid.
    destruct (run_rows _ _ _ _ _ (Row3 chrom start cid) Hlines Hrun)
      as (Hacc & _ & ->).
    split.
    + intros (cid' & reads & read & p & Hin & Hb & Hread & Hp & Hr).
      apply Hparsed in Hp as (c & st & i & Hps & ->). simpl in Hr.
      injection Hr as -> -> ->. by exists reads, read.
    + intros (reads & read & Hin & Hb & Hread & Hps).
      destruct (accepted_read _ _ _ _ _ Hacc Hin Hb Hread) as [p Hp].
      exists cid, reads, read, p. split_and!; try done.
      apply Hparsed in Hp as (c & st & i & Hps' & ->). simpl. congruence.
Qed.

(** ** The bins of a cluster *)

Lemma bins_get_add c chrom i bins :
  bins_get c (bins_add chrom i bins) =
    if decide (c = chrom) then bins_get c bins ++ [i] else bins_get c bins.
Proof.
  induction bins as [|[c' h] rest IH]; simpl.
  - repeat case_decide; congruence.
  - repeat (case_decide; simpl; subst); congruence.
Qed.

Lemma cluster_bins_elem c x ps bins :
  x ∈ bins_get c (foldl add_parsed bins ps) ↔
  x ∈ bins_get c bins ∨ ∃ r, (c, x, r) ∈ ps.
Proof.
  revert bins. induction ps as [|[[chrom i] r] ps IH]; intros bins; simpl.
  - split; [by left|]. by intros [?|(? & ?%elem_of_nil)].
  - rewrite IH. unfold add_parsed. simpl. rewrite bins_get_add.
    case_decide as Hc.
    + subst. rewrite elem_of_app, list_elem_of_singleton. split.
      * intros [[?| ->]|(r' & ?)]; [by left|right; exists r; left|].
        right. exists r'. by right.
      * intros [?|(r' & [[= -> ->]|?]%elem_of_cons)];
          [by left; left|by left; right|right; eauto].
    + split.
      * intros [?|(r' & ?)]; [by left|]. right. exists r'. by right.
      * intros [?|(r' & [[= -> ->]|?]%elem_of_cons)]; [by left|done|right; eauto].
Qed.

Lemma bins_get_keys c (bins : list (string * list Z)) :
  Forall (λ item, item.2 ≠ []) bins →
  c ∈ fst <$> bins ↔ bins_get c bins ≠ [].
Proof.
  induction 1 as [|[c' h] rest Hh _ IH]; simpl.
  - split; [by intros ?%elem_of_nil|done].
  - rewrite elem_of_cons. case_decide as Hc.
    + subst. split; [done|by left].
    + rewrite IH. split; [|by right]. intros [->|?]; done.
Qed.

Lemma cluster_bins_all_nonempty ps :
  Forall (λ item : string * list Z, item.2 ≠ []) (cluster_bins ps).
Proof.
  unfold cluster_bins.
  assert (∀ bins, Forall (λ item : string * list Z, item.2 ≠ []) bins →
            Forall (λ item : string * list Z, item.2 ≠ []) (foldl add_parsed bins ps))
    as Hall.
  { induction ps as [|p ps IH]; intros bins Hb; simpl; [done|].
    apply IH. by apply bins_add_nonempty. }
  by apply Hall.
Qed.

(** X12. The bins of a cluster group its reads by chromosome: one bin for
    each chromosome that a read names, none twice, and the bin of a
    chromosome holds a position exactly when a read of the cluster names
    that chromosome with that start. *)
Theorem bins_group_reads self cid reads bins s s1 :
  fold_m (process_read self cid) [] reads s = (Ok bins, s1) →
  NoDup (fst <$> bins) ∧
  (∀ chrom, chrom ∈ fst <$> bins ↔
     ∃ read i r, read ∈ reads ∧ parsed self cid read = Some (chrom, i, r)) ∧
  (∀ chrom i, i ∈ set_iter (bins_get chrom bins) ↔
     ∃ read r, read ∈ reads ∧ parsed self cid read = Some (chrom, i, r)).
Proof.
  intros (ps & Hps & -> & _)%reads_ok_inv. apply mapM_Some in Hps.
  assert (∀ chrom i, i ∈ bins_get chrom (cluster_bins ps) ↔
            ∃ read r, read ∈ reads ∧ parsed self cid read = Some (chrom, i, r))
    as Helem.
  { intros chrom i. unfold cluster_bins. rewrite cluster_bins_elem. simpl. split.
    - intros [?%elem_of_nil|(r & Hr)]; [done|].
      apply (parsed_elem _ _ _ _ Hps) in Hr as (read & ? & ?). eauto.
    - intros (read & r & Hread & Hp). right. exists r.
      apply (parsed_elem _ _ _ _ Hps). eauto. }
  split_and!.
  - apply cluster_bins_NoDup.
  - intros chrom.
    rewrite (bins_get_keys _ _ (cluster_bins_all_nonempty ps)). split.
    + intros Hne. destruct (bins_get chrom (cluster_bins ps)) as [|i h] eqn:Hg;
        [done|].
      assert (i ∈ bins_get chrom (cluster_bins ps)) as Hi by (rewrite Hg; left).
      apply Helem in Hi as (read & r & ? & ?). eauto.
    + intros (read & i & r & Hread & Hp) Hnil.
      assert (i ∈ bins_get chrom (cluster_bins ps)) as Hi by (apply Helem; eauto).
      rewrite Hnil in Hi. by apply elem_of_nil in Hi.
  - intros chrom i. by rewrite elem_of_set_iter.
Qed.

(** ** The contact files, read back *)




(** ** Weights *)

Lemma set_iter_length h : (length (set_iter h) ≤ length h)%nat.
Proof.
  apply submseteq_length, NoDup_submseteq; [apply set_iter_NoDup|].
  intros x. by rewrite elem_of_set_iter.
Qed.

Lemma bins_add_total chrom i (bins : list (string * list Z)) :
  sum_list_with (λ item, length item.2) (bins_add chrom i bins)
    = S (sum_list_with (λ item, length item.2) bins).
Proof.
  induction bins as [|[c h] rest IH]; simpl; [done|].
  case_decide; simpl.
  - rewrite length_app. simpl. lia.
  - rewrite IH. lia.
Qed.

Lemma cluster_bins_total ps :
  sum_list_with (λ item, length item.2) (cluster_bins ps) = length ps.
Proof.
  unfold cluster_bins.
  assert (∀ bins, sum_list_with (λ item : string * list Z, length item.2)
                    (foldl add_parsed bins ps)
                  = (sum_list_with (λ item, length item.2) bins + length ps)%nat) as H.
  { induction ps as [|p ps IH]; intros bins; simpl; [lia|].
    rewrite IH. unfold add_parsed. rewrite bins_add_total. lia. }
  by rewrite H.
Qed.

Lemma bins_elem_total (bins : list (string * list Z)) item :
  item ∈ bins → (length item.2 ≤ sum_list_with (λ item, length item.2) bins)%nat.
Proof.
  induction bins as [|x rest IH]; [by intros ?%elem_of_nil|].
  intros [->|Hin]%elem_of_cons; simpl; [lia|]. specialize (IH Hin). lia.
Qed.

Lemma bins_get_total c (bins : list (string * list Z)) :
  (length (bins_get c bins) ≤ sum_list_with (λ item, length item.2) bins)%nat.
Proof.
  induction bins as [|[c' h] rest IH]; simpl; [done|]. case_decide; lia.
Qed.

Lemma bins_get_two_total a b (bins : list (string * list Z)) :
  a ≠ b →
  (length (bins_get a bins) + length (bins_get b bins)
     ≤ sum_list_with (λ item, length item.2) bins)%nat.
Proof.
  intros Hne. induction bins as [|[c h] rest IH]; simpl; [done|].
  pose proof (bins_get_total a rest). pose proof (bins_get_total b rest).
  repeat case_decide; subst; try done; lia.
Qed.

Lemma cluster_contacts_weights ps reads_len c :
  c ∈ cluster_contacts reads_len (cluster_bins ps) →
  2 ≤ c_inc2 c ≤ Z.of_nat (length ps).
Proof.
  pose proof (cluster_bins_total ps) as Htot.
  unfold cluster_contacts. intros [Hc|Hc]%elem_of_app.
  - apply list_elem_of_bind in Hc as (item & Hc & Hitem).
    pose proof (bins_elem_total _ _ Hitem) as Hle.
    pose proof (set_iter_length item.2) as Hset.
    unfold intra_of in Hc. destruct (Z.ltb_spec 1 (set_len item.2)) as [Hk|];
      [|by apply elem_of_nil in Hc].
    apply list_elem_of_fmap in Hc as (p & -> & _). simpl.
    unfold set_len in *. lia.
  - unfold inter_contacts in Hc.
    destruct (1 <? length (cluster_bins ps))%nat; [|by apply elem_of_nil in Hc].
    apply list_elem_of_bind in Hc as ([a b] & Hc & Hpair).
    apply inter_of_elem in Hc as (_ & _ & -> & H1 & H2). simpl in *.
    assert (a ≠ b) as Hne
      by (eapply combinations2_distinct; [apply cluster_bins_NoDup|done]).
    pose proof (bins_get_two_total a b (cluster_bins ps) Hne) as Hle.
    pose proof (set_iter_length (bins_get a (cluster_bins ps))).
    pose proof (set_iter_length (bins_get b (cluster_bins ps))).
    unfold set_len.
    destruct (set_iter (bins_get a (cluster_bins ps))); [by apply elem_of_nil in H1|].
    destruct (set_iter (bins_get b (cluster_bins ps))); [by apply elem_of_nil in H2|].
    simpl in *. lia.
Qed.

Lemma weights_inv_append self cl key start1 start2 inc2 :
  2 ≤ inc2 ≤ _max_cluster_size self → weights_inv self cl →
  weights_inv self (store_append key (contact_line start1 start2 inc2) cl).
Proof.
  intros Hw Hinv k ls. rewrite store_append_lookup.
  case_decide as Hk; [|by apply Hinv]. intros [= <-].
  apply Forall_app. split.
  - rewrite lookup_total_alt. destruct (cl !! key) as [old|] eqn:Hold; simpl.
    + by apply (Hinv key).
    + constructor.
  - repeat constructor. by exists start1, start2, inc2.
Qed.

Lemma weights_inv_emit self cid cs cl :
  (∀ c, c ∈ cs → 2 ≤ c_inc2 c ≤ _max_cluster_size self) →
  weights_inv self cl → weights_inv self (foldl (emit self cid) cl cs).
Proof.
  revert cl. induction cs as [|c cs IH]; intros cl Hw Hinv; simpl; [done|].
  apply IH; [intros; apply Hw; by right|].
  assert (2 ≤ c_inc2 c ≤ _max_cluster_size self) as Hc by (apply Hw; left).
  unfold emit.
  destruct (decide (c_chrom1 c ∈ _chromosome_list self)) as [H1|H1];
    [|by rewrite add_contact_unknown by auto].
  destruct (decide (c_chrom2 c ∈ _chromosome_list self)) as [H2|H2];
    [|by rewrite add_contact_unknown by auto].
  rewrite add_contact_known by done.
  destruct (String.ltb _ _); by apply weights_inv_append.
Qed.

Lemma process_line_weights self line s :
  weights_inv self (contact_lists s) →
  weights_inv self (contact_lists (process_line self line s).2).
Proof.
  intros Hinv.
  destruct (process_line_cases self line s)
    as [[-> _]|[[-> _]|[(cid & reads & ps & _ & _ & _ & ->)
                       |(cid & reads & ps & _ & Hb & Hps & ->)]]]; simpl; try done.
  - by destruct (push_parsed_frame ps s) as [-> _].
  - destruct (push_parsed_frame ps s) as [-> _].
    apply weights_inv_emit; [|done]. intros c Hc.
    apply mapM_Some, Forall2_length in Hps.
    apply cluster_contacts_weights in Hc.
    unfold in_bounds in Hb. apply andb_true_iff in Hb as [_ Hmax%Z.leb_le]. lia.
Qed.

Lemma for_each_weights self lines s :
  weights_inv self (contact_lists s) →
  weights_inv self (contact_lists (for_each (process_line self) lines s).2).
Proof.
  revert s. induction lines as [|line lines IH]; intros s Hinv; simpl; [done|].
  unfold bind. pose proof (process_line_weights self line s Hinv) as H.
  destruct (process_line self line s) as [[[]|e] s1]; simpl in *; auto.
Qed.

(** X14. Every line of the store a run builds carries a weight of at
    least 2 and at most [max_cluster_size]: a weight counts positions of
    one cluster within the bounds, those of one chromosome that has
    several, or those of two chromosomes together. *)
Theorem weights_within_bounds self w output r s key lines l :
  generate_hsv self w output initial_state = (r, s) →
  contact_lists s !! key = Some lines → l ∈ lines →
  ∃ start1 start2 inc2 : Z,
    l = contact_line start1 start2 inc2 ∧ 2 ≤ inc2 ≤ _max_cluster_size self.
Proof.
  intros Hrun Hk Hl.
  assert (weights_inv self (contact_lists s)) as Hinv.
  { rewrite generate_hsv_eq in Hrun.
    destruct (file_lines w (_cluster_file self)) as [lines'|].
    - pose proof (for_each_weights self lines' (prepared self output initial_state))
        as H.
      destruct (for_each _ _ _) as [[[]|e] s2]; injection Hrun as <- <-;
        apply H; intros k ls; simpl; by rewrite lookup_empty.
    - injection Hrun as <- <-. intros k ls. simpl. by rewrite lookup_empty. }
  specialize (Hinv _ _ Hk). rewrite Forall_forall in Hinv. by apply Hinv.
Qed.

(** ** How many contacts a cluster gives *)

Lemma length_bind_sum {A B} (g : A → list B) (l : list A) :
  length (l ≫= g) = sum_list_with (λ x, length (g x)) l.
Proof.
  induction l as [|x l IH]; [done|].
  rewrite bind_cons, length_app, IH. done.
Qed.

Lemma sum_list_with_same {A} (f g : A → nat) (l : list A) :
  (∀ x, x ∈ l → f x = g x) → sum_list_with f l = sum_list_with g l.
Proof.
  induction l as [|x l IH]; intros H; simpl; [done|].
  rewrite H by left. rewrite IH; [done|]. intros. apply H. by right.
Qed.

Lemma sum_list_with_map {A B} (f : B → nat) (g : A → B) (l : list A) :
  sum_list_with f (g <$> l) = sum_list_with (λ x, f (g x)) l.
Proof. induction l as [|x l IH]; csimpl; [done|]. by rewrite IH. Qed.

Lemma sum_pairs_with {A} (f : A → nat) (x : A) (t : list A) :
  sum_list_with (λ p, f p.1 * f p.2)%nat (pair x <$> t)
    = (f x * sum_list_with f t)%nat.
Proof. induction t as [|y t IH]; csimpl; [lia|]. rewrite IH. lia. Qed.

(** Twice the sum over the pairs, with the sum of the squares, is the
    square of the sum. *)
Lemma sum_combinations2 {A} (f : A → nat) (l : list A) :
  (2 * sum_list_with (λ p, f p.1 * f p.2) (combinations2 l)
     + sum_list_with (λ a, f a * f a) l
   = sum_list_with f l * sum_list_with f l)%nat.
Proof.
  induction l as [|x t IH]; simpl; [done|].
  rewrite sum_list_with_app, sum_pairs_with. nia.
Qed.

Lemma intra_of_length reads_len item :
  (2 * length (intra_of reads_len item) + length (set_iter item.2)
   = length (set_iter item.2) * length (set_iter item.2))%nat.
Proof.
  unfold intra_of, set_len.
  destruct (Z.ltb_spec 1 (Z.of_nat (length (set_iter item.2)))) as [Hk|Hk].
  - rewrite length_fmap. pose proof (combinations2_length (set_iter item.2)). nia.
  - simpl. assert (length (set_iter item.2) = 0 ∨ length (set_iter item.2) = 1)%nat
      as [-> | ->] by lia; done.
Qed.

Lemma inter_contacts_length reads_len bins :
  length (inter_contacts reads_len bins) =
    sum_list_with (λ p, length (set_iter (bins_get p.1 bins))
                        * length (set_iter (bins_get p.2 bins)))%nat
      (combinations2 (fst <$> bins)).
Proof.
  unfold inter_contacts. destruct (1 <? length bins)%nat eqn:Hlen.
  - rewrite length_bind_sum. apply sum_list_with_same.
    intros [a b] _. unfold inter_of. by rewrite cross_length.
  - by destruct bins as [|x [|y t]].
Qed.

(** The calls of one cluster, counted: with [N] positions in all, twice
    the calls and [N] make [N * N]. *)
Lemma cluster_contacts_length reads_len bins :
  NoDup (fst <$> bins) →
  (2 * length (cluster_contacts reads_len bins) + positions bins
   = positions bins * positions bins)%nat.
Proof.
  intros Hnd. unfold cluster_contacts, intra_contacts, positions.
  rewrite length_app, length_bind_sum, inter_contacts_length.
  pose proof (sum_combinations2
                (λ c, length (set_iter (bins_get c bins))) (fst <$> bins)) as Hsq.
  rewrite !sum_list_with_map in Hsq.
  rewrite (sum_list_with_same
             (λ x : string * list Z, length (set_iter (bins_get x.1 bins)
                                     ) * length (set_iter (bins_get x.1 bins)))%nat
             (λ item, length (set_iter item.2) * length (set_iter item.2))%nat) in Hsq.
  2:{ intros [c h] Hin. simpl. by rewrite (bins_get_elem _ _ _ Hnd Hin). }
  rewrite (sum_list_with_same
             (λ x : string * list Z, length (set_iter (bins_get x.1 bins)))
             (λ item, length (set_iter item.2))) in Hsq.
  2:{ intros [c h] Hin. simpl. by rewrite (bins_get_elem _ _ _ Hnd Hin). }
  assert (2 * sum_list_with (λ x, length (intra_of reads_len x)) bins
          + sum_list_with (λ item, length (set_iter item.2)) bins
          = sum_list_with (λ item, length (set_iter item.2)
                                   * length (set_iter item.2)) bins)%nat as Hintra.
  { clear. induction bins as [|item bins IH]; simpl; [done|].
    pose proof (intra_of_length reads_len item). lia. }
  lia.
Qed.

Lemma stored_lines_append key line (cl : gmap string (list string)) :
  length (stored_lines (store_append key line cl)) = S (length (stored_lines cl)).
Proof.
  unfold stored_lines, store_append. rewrite !length_bind_sum.
  rewrite lookup_total_alt. destruct (cl !! key) as [old|] eqn:Hold; simpl.
  - rewrite <- (insert_delete_eq cl).
    rewrite <- (insert_delete_id cl key old Hold) at 2.
    rewrite !map_to_list_insert by apply lookup_delete_eq.
    simpl. rewrite length_app. simpl. lia.
  - by rewrite map_to_list_insert.
Qed.

Lemma stored_lines_emit self cid cs cl :
  (∀ c, c ∈ cs → c_chrom1 c ∈ _chromosome_list self ∧
                 c_chrom2 c ∈ _chromosome_list self) →
  length (stored_lines (foldl (emit self cid) cl cs))
    = (length (stored_lines cl) + length cs)%nat.
Proof.
  revert cl. induction cs as [|c cs IH]; intros cl Hall; simpl; [lia|].
  rewrite IH by (intros; apply Hall; by right).
  destruct (Hall c) as [H1 H2]; [left|].
  unfold emit. rewrite add_contact_known by done.
  destruct (String.ltb _ _); rewrite stored_lines_append; lia.
Qed.

Lemma cluster_contacts_chroms reads_len bins c :
  c ∈ cluster_contacts reads_len bins →
  c_chrom1 c ∈ fst <$> bins ∧ c_chrom2 c ∈ fst <$> bins.
Proof.
  unfold cluster_contacts. intros [Hc|Hc]%elem_of_app.
  - apply list_elem_of_bind in Hc as (item & Hc & Hitem).
    apply intra_of_elem in Hc as (-> & -> & _).
    split; apply list_elem_of_fmap; by exists item.
  - unfold inter_contacts in Hc.
    destruct (1 <? length bins)%nat; [|by apply elem_of_nil in Hc].
    apply list_elem_of_bind in Hc as ([a b] & Hc & Hpair).
    apply inter_of_elem in Hc as (-> & -> & _).
    by apply elem_of_combinations2 in Hpair.
Qed.

(** X15. A cluster within the bounds with [N] (chromosome, position)
    pairs in its bins makes [N*(N-1)/2] calls of [add_contact_to_list],
    the intrachromosomal and the interchromosomal ones together: one for
    each two of its pairs. When all its chromosomes are in the registry,
    the store grows by exactly that many lines. *)
Theorem cluster_contact_count self cid reads bins s s1 :
  in_bounds self (Z.of_nat (length reads)) = true →
  fold_m (process_read self cid) [] reads s = (Ok bins, s1) →
  Z.of_nat (length (cluster_contacts (Z.of_nat (length reads)) bins))
    = Z.of_nat (positions bins) * (Z.of_nat (positions bins) - 1) / 2 ∧
  ((∀ chrom, chrom ∈ fst <$> bins → chrom ∈ _chromosome_list self) →
   ∃ s2, process_line self (cid :: reads) s = (Ok tt, s2) ∧
         Z.of_nat (length (stored_lines (contact_lists s2)))
           = Z.of_nat (length (stored_lines (contact_lists s)))
             + Z.of_nat (positions bins) * (Z.of_nat (positions bins) - 1) / 2).
Proof.
  intros Hb (ps & Hps & -> & ->)%reads_ok_inv.
  pose proof (cluster_contacts_length (Z.of_nat (length reads)) (cluster_bins ps)
                (cluster_bins_NoDup ps)) as Hlen.
  assert (Z.of_nat (length (cluster_contacts (Z.of_nat (length reads))
                              (cluster_bins ps)))
          = Z.of_nat (positions (cluster_bins ps))
            * (Z.of_nat (positions (cluster_bins ps)) - 1) / 2) as Hcount.
  { apply Z.div_unique_exact; [done|]. nia. }
  split; [exact Hcount|]. intros Hknown.
  rewrite (process_line_ok _ _ _ ps) by done. eexists. split; [done|]. simpl.
  destruct (push_parsed_frame ps s) as [-> _].
  rewrite stored_lines_emit.
  - rewrite Nat2Z.inj_add. by rewrite Hcount.
  - intros c [H1 H2]%cluster_contacts_chroms. split; by apply Hknown.
Qed.

(** ** The converter *)

(** X16. [parse_genomic_coord] gives a read exactly for the coordinates
    [chrom:start-end] with one [:], one [-] after it, and a start and an
    end that [int] takes; the read is [chrom:mid] with [mid] the floor of
    the mean of start and end, which lies between them when the start is
    not after the end. A missing value gives no read. *)
Theorem parse_genomic_coord_shape coord read :
  parse_genomic_coord None = None ∧
  (parse_genomic_coord (Some coord) = Some read ↔
   ∃ chrom start end_ i j,
     coord = chrom +:+ ":" +:+ start +:+ "-" +:+ end_ ∧
     has_char ":" chrom = false ∧ has_char ":" start = false ∧
     has_char ":" end_ = false ∧
     has_char "-" start = false ∧ has_char "-" end_ = false ∧
     py_int start = Some i ∧ py_int end_ = Some j ∧
     read = chrom +:+ ":" +:+ pretty ((i + j) `div` 2) ∧
     (i ≤ j → i ≤ (i + j) `div` 2 ≤ j)).
Proof.
  split; [done|]. unfold parse_genomic_coord. split.
  - destruct (split_char ":" coord) as [|c [|pos [|]]] eqn:Hc; try done.
    apply split_char_two in Hc as (-> & Hcc & Hcp).
    destruct (split_char "-" pos) as [|st [|en [|]]] eqn:Hp; try done.
    apply split_char_two in Hp as (-> & Hds & Hde).
    destruct (py_int st) as [i|] eqn:Hi; [|done].
    destruct (py_int en) as [j|] eqn:Hj; [|done].
    intros [= <-]. exists c, st, en, i, j.
    rewrite has_char_app in Hcp. cbn [has_char] in Hcp.
    apply orb_false_iff in Hcp as [Hc1 Hc2]. simpl in Hc2.
    split_and!; try done.
    + intros Hle. split.
      * apply Z.div_le_lower_bound; lia.
      * apply Z.div_le_upper_bound; lia.
  - intros (chrom & start & end_ & i & j & -> & Hc1 & Hc2 & Hc3 & Hd1 & Hd2
            & Hi & Hj & -> & _).
    change (":" +:+ start +:+ "-" +:+ end_)
      with (String ":" (start +:+ String "-" end_)).
    rewrite (split_char_first _ _ _ Hc1).
    rewrite split_char_absent
      by (rewrite has_char_app; cbn [has_char]; by rewrite Hc2, Hc3).
    rewrite (split_char_first _ _ _ Hd1), (split_char_absent _ _ Hd2).
    by rewrite Hi, Hj.
Qed.

Lemma converter_read_parsed self cid coord read :
  (∀ z : Z, py_int (pretty z) = Some z) →
  _start_only self = true →
  parse_genomic_coord (Some coord) = Some read →
  ∃ chrom mid,
    read = chrom +:+ ":" +:+ pretty mid ∧
    parsed self cid read = Some (chrom, mid, Row3 chrom (pretty mid) cid).
Proof.
  intros Hint Hmode. unfold parse_genomic_coord.
  destruct (split_char ":" coord) as [|c [|pos [|]]] eqn:Hc; try done.
  apply split_char_two in Hc as (-> & Hcc & Hcp).
  destruct (split_char "-" pos) as [|st [|en [|]]] eqn:Hp; try done.
  destruct (py_int st) as [i|]; [|done]. destruct (py_int en) as [j|]; [|done].
  intros [= <-]. exists c, ((i + j) `div` 2). split; [done|].
  unfold parsed, parse_start_only. rewrite Hmode. simpl.
  change (":" +:+ ?x) with (String ":" x).
  rewrite (split_once_first _ _ _ Hcc). by rewrite Hint.
Qed.

(** X17. A cluster line whose tokens are an identifier followed by reads
    that [parse_genomic_coord] gave is one that the loop of [generate_hsv]
    takes in start-only mode, given that [int] reads back the decimal
    numeral of an integer: the line is gone through without raising, and
    each of its reads goes into the bin of its chromosome at the mid-point
    and gives the row of that chromosome and that numeral. This is about
    the tokens [line.split()] gives: a read with white space in its
    chromosome name does not come back from the cluster file as one
    token. *)
Theorem converter_line_accepted self cid reads s :
  (∀ z : Z, py_int (pretty z) = Some z) →
  _start_only self = true →
  Forall (λ read, ∃ coord, parse_genomic_coord (Some coord) = Some read) reads →
  accepted self (cid :: reads) ∧
  (∃ s', process_line self (cid :: reads) s = (Ok tt, s')) ∧
  (∀ read bins s0, read ∈ reads →
     ∃ chrom mid,
       read = chrom +:+ ":" +:+ pretty mid ∧
       process_read self cid bins read s0 =
         (Ok (bins_add chrom mid bins), push_row s0 (Row3 chrom (pretty mid) cid))).
Proof.
  intros Hint Hmode Hall. rewrite Forall_forall in Hall.
  assert (accepted self (cid :: reads)) as Hacc.
  { exists cid, reads. split; [done|]. intros _ read Hread.
    destruct (Hall _ Hread) as [coord Hcoord].
    destruct (converter_read_parsed self cid coord read Hint Hmode Hcoord)
      as (chrom & mid & _ & ->). by eexists. }
  split_and!.
  - done.
  - by apply process_line_accepted.
  - intros read bins s0 Hread. destruct (Hall _ Hread) as [coord Hcoord].
    destruct (converter_read_parsed self cid coord read Hint Hmode Hcoord)
      as (chrom & mid & -> & Hp).
    exists chrom, mid. split; [done|]. rewrite process_read_eq, Hp. done.
Qed.

End Coverage.

(** * Duplicate positions *)

Section Duplicates.

Context {rt : Runtime} {rt_laws : RuntimeLaws}.

Lemma NoDup_same_length {A} (l : list A) a :
  NoDup l → (∀ x, x ∈ l → x = a) → (length l ≤ 1)%nat.
Proof.
  intros Hnd Hall. destruct l as [|x [|y l]]; simpl; [lia..|].
  exfalso. apply NoDup_cons in Hnd as [Hx _]. apply Hx.
  rewrite (Hall x) by left. rewrite (Hall y) by (right; left). left.
Qed.

Lemma NoDup_count {A} `{EqDecision A} (l : list A) a :
  NoDup l → a ∈ l → length (filter (λ x, x = a) l) = 1%nat.
Proof.
  induction 1 as [|x l Hx Hl IH]; [by intros ?%elem_of_nil|].
  intros [->|Hin]%elem_of_cons.
  - rewrite filter_cons_True by done. simpl. f_equal.
    rewrite filter_none; [done|]. apply Forall_forall. by intros y Hy ->.
  - rewrite filter_cons_False; [by apply IH|]. by intros ->.
Qed.

Lemma bind_all_nil {A B} (f : A → list B) (l : list A) :
  (∀ x, x ∈ l → f x = []) → l ≫= f = [].
Proof.
  induction l as [|x l IH]; intros Hall; [done|].
  rewrite bind_cons, Hall by left. apply IH. intros y Hy. apply Hall. by right.
Qed.

(** The bins of the reads of a cluster hold the start of a read, and no
    other position. *)
Lemma reads_bins_elem self cid reads bins s s1 chrom i :
  fold_m (process_read self cid) [] reads s = (Ok bins, s1) →
  i ∈ set_iter (bins_get chrom bins) ↔
  ∃ read r, read ∈ reads ∧ parsed self cid read = Some (chrom, i, r).
Proof.
  intros (ps & Hps & -> & _)%reads_ok_inv. apply mapM_Some in Hps.
  etrans; [apply elem_of_set_iter|].
  unfold cluster_bins. rewrite cluster_bins_elem. simpl. split.
  - intros [?%elem_of_nil|(r & Hr)]; [done|].
    apply (parsed_elem _ _ _ _ Hps) in Hr as (read & ? & ?). eauto.
  - intros (read & r & Hread & Hp). right. exists r.
    apply (parsed_elem _ _ _ _ Hps). eauto.
Qed.

(** No call of a cluster joins a position of a chromosome with itself. *)
Lemma cluster_contacts_distinct reads_len bins c :
  NoDup (fst <$> bins) →
  c ∈ cluster_contacts reads_len bins →
  c_chrom1 c = c_chrom2 c → c_start1 c ≠ c_start2 c.
Proof.
  intros Hnd [Hc|Hc]%elem_of_app Hsame.
  - apply list_elem_of_bind in Hc as (item & Hc & _).
    apply intra_of_elem in Hc as (_ & _ & _ & _ & Hp).
    by apply combinations2_distinct in Hp; [|apply set_iter_NoDup].
  - exfalso. unfold inter_contacts in Hc.
    destruct (1 <? length bins)%nat; [|by apply elem_of_nil in Hc].
    apply list_elem_of_bind in Hc as ([a b] & Hc & Hp).
    apply inter_of_elem in Hc as (H1 & H2 & _). simpl in *.
    apply (combinations2_distinct _ _ _ Hnd Hp). congruence.
Qed.

(** C7. The bins that the loop over the reads of a cluster builds hold
    one entry for each chromosome and, in the bin of a chromosome, each
    start position once, however many reads of the cluster have it: the
    start of every read is there, exactly once, and a further read at a
    position that its chromosome's bin holds adds no chromosome and leaves
    the size of every bin. The calls of [add_contact_to_list] made for a
    cluster within the bounds are those of these bins, and none of them
    joins a position of a chromosome with itself. A cluster whose reads
    are all at one position of one chromosome, two reads at the same
    chromosome and start among them, makes no call and leaves the contact
    store as it was. *)
Theorem duplicate_positions_collapse self cid reads bins s s1 :
  fold_m (process_read self cid) [] reads s = (Ok bins, s1) →
  let reads_len := Z.of_nat (length reads) in
  NoDup (fst <$> bins) ∧
  (∀ chrom, NoDup (set_iter (bins_get chrom bins))) ∧
  (∀ read chrom i r,
     read ∈ reads → parsed self cid read = Some (chrom, i, r) →
     length (filter (λ x, x = i) (set_iter (bins_get chrom bins))) = 1%nat) ∧
  (∀ read chrom i r s0,
     parsed self cid read = Some (chrom, i, r) →
     i ∈ set_iter (bins_get chrom bins) →
     ∃ s2, process_read self cid bins read s0 = (Ok (bins_add chrom i bins), s2) ∧
           fst <$> bins_add chrom i bins = fst <$> bins ∧
           ∀ c, set_len (bins_get c (bins_add chrom i bins)) =
                set_len (bins_get c bins)) ∧
  (in_bounds self reads_len = true →
   process_line self (cid :: reads) s =
     (Ok tt, set_contact_lists
               (λ cl, foldl (emit self cid) cl (cluster_contacts reads_len bins)) s1)) ∧
  (∀ c, c ∈ cluster_contacts reads_len bins →
        c_chrom1 c = c_chrom2 c → c_start1 c ≠ c_start2 c) ∧
  ((∃ chrom i, ∀ read, read ∈ reads →
                 ∃ r, parsed self cid read = Some (chrom, i, r)) →
   cluster_contacts reads_len bins = [] ∧
   ∃ s', process_line self (cid :: reads) s = (Ok tt, s') ∧
         contact_lists s' = contact_lists s).
Proof.
  intros Hreads reads_len.
  pose proof (reads_bins_elem self cid reads bins s s1) as Helem.
  destruct (reads_ok_inv _ _ _ _ _ _ Hreads) as (ps & Hps & -> & ->).
  pose proof (cluster_bins_NoDup ps) as Hnd.
  split_and!.
  - done.
  - intros chrom. apply set_iter_NoDup.
  - intros read chrom i r Hread Hp. apply NoDup_count; [apply set_iter_NoDup|].
    apply Helem; eauto.
  - intros read chrom i r s0 Hp Hi. rewrite process_read_eq, Hp.
    eexists. split; [done|]. apply (proj1 (elem_of_set_iter _ _)) in Hi.
    split.
    + rewrite bins_add_keys, decide_True; [done|].
      apply (bins_get_keys _ _ (cluster_bins_all_nonempty ps)).
      intros Hnil. rewrite Hnil in Hi. by apply elem_of_nil in Hi.
    + intros c. rewrite bins_get_add. case_decide as Hc; [|done].
      subst c. by apply set_len_duplicate.
  - intros Hb. by apply process_line_ok.
  - intros c. by apply cluster_contacts_distinct.
  - intros (chrom & i & Hall).
    assert (∀ c x, x ∈ set_iter (bins_get c (cluster_bins ps)) → c = chrom ∧ x = i)
      as Hone.
    { intros c x Hx. apply (Helem c x Hreads) in Hx as (read & r & Hread & Hp).
      destruct (Hall _ Hread) as [r' Hp']. split; congruence. }
    assert (cluster_contacts reads_len (cluster_bins ps) = []) as Hnone.
    { unfold cluster_contacts, intra_contacts, inter_contacts.
      rewrite bind_all_nil.
      - simpl. destruct (1 <? length (cluster_bins ps))%nat eqn:Hlen; [|done].
        exfalso. apply Nat.ltb_lt in Hlen.
        assert (length (fst <$> cluster_bins ps) ≤ 1)%nat as Hle.
        { apply (NoDup_same_length _ chrom Hnd). intros c Hc.
          apply (bins_get_keys _ _ (cluster_bins_all_nonempty ps)) in Hc.
          destruct (bins_get c (cluster_bins ps)) as [|x h] eqn:Hg; [done|].
          assert (x ∈ set_iter (bins_get c (cluster_bins ps))) as Hx
            by (apply elem_of_set_iter; rewrite Hg; left).
          by apply Hone in Hx as [-> _]. }
        rewrite length_fmap in Hle. lia.
      - intros [c h] Hin. unfold intra_of. simpl.
        destruct (Z.ltb_spec 1 (set_len h)) as [Hlt|]; [|done].
        exfalso. unfold set_len in Hlt.
        assert (length (set_iter h) ≤ 1)%nat as Hle; [|lia].
        apply (NoDup_same_length _ i (set_iter_NoDup h)). intros x Hx.
        rewrite <- (bins_get_elem c h (cluster_bins ps) Hnd Hin) in Hx.
        by apply Hone in Hx as [_ ->]. }
    split; [done|].
    destruct (in_bounds self (Z.of_nat (length reads))) eqn:Hb.
    + rewrite (process_line_ok self cid reads ps) by done.
      eexists. split; [done|]. fold reads_len. rewrite Hnone. simpl.
      apply push_parsed_frame.
    + rewrite process_line_skip by done. by exists s.
Qed.

End Duplicates.

(** * The sample run *)

Lemma insertion_order_perm h :
  insertion_order h ≡ₚ elements (list_to_set h : gset Z).
Proof.
  apply NoDup_Permutation.
  - apply NoDup_remove_dups.
  - apply NoDup_elements.
  - intros x. unfold insertion_order.
    by rewrite elem_of_remove_dups, elem_of_elements, elem_of_list_to_set.
Qed.

Lemma sample_runtime_laws : @RuntimeLaws sample_runtime.
Proof. constructor. exact insertion_order_perm. Qed.

#[local] Existing Instance sample_runtime.

(** The scenario of the specification: one file for [chr1-chr1] with the
    line [10,30,2], one for [chr1-chr2] with the two lines of weight 3; the
    cluster of one read leaves nothing. *)
Example sample_run_completes : sample_run.1 = Ok tt.
Proof. vm_compute. reflexivity. Qed.

Example sample_run_intra :
  contact_files sample_run.2 !! "chr1-chr1.txt" = Some "10,30,2".
Proof. vm_compute. reflexivity. Qed.

Example sample_run_inter :
  contact_files sample_run.2 !! "chr1-chr2.txt"
    = Some ("10,5,3" +:+ newline +:+ "30,5,3").
Proof. vm_compute. reflexivity. Qed.

Example sample_run_rows :
  db_rows sample_run.2 =
    [Row4 "chr1" "10" "20" "c1"; Row4 "chr1" "30" "40" "c1"; Row4 "chr2" "5" "15" "c1"].
Proof. vm_compute. reflexivity. Qed.

Example sample_bins :
  (fold_m (process_read Sample.self "c1") [] Sample.reads initial_state).1
    = Ok [("chr1", [10; 30]); ("chr2", [5])].
Proof. vm_compute. reflexivity. Qed.

(** ** The theorems at the sample inputs *)

(** The second cluster of the sample has one read, below the minimum 2. *)
Lemma out_of_bounds_cluster_discarded_witness :
  (Z.of_nat (length ["readD_chr1:7-9"]) < _min_cluster_size Sample.self ∨
   _max_cluster_size Sample.self < Z.of_nat (length ["readD_chr1:7-9"])) ∧
  process_line Sample.self ["c2"; "readD_chr1:7-9"] initial_state
    = (Ok tt, initial_state).
Proof.
  assert (Z.of_nat (length ["readD_chr1:7-9"]) < _min_cluster_size Sample.self ∨
          _max_cluster_size Sample.self < Z.of_nat (length ["readD_chr1:7-9"])) as H.
  { left. simpl. lia. }
  split; [exact H|].
  exact (proj1 (@out_of_bounds_cluster_discarded sample_runtime
                  Sample.self "c2" ["readD_chr1:7-9"] initial_state H)).
Defined.

Lemma canonical_pair_symmetric_witness :
  "chr1" ∈ _chromosome_list Sample.self ∧ "chr2" ∈ _chromosome_list Sample.self ∧
  add_contact_to_list Sample.self "c1" "chr1" 10 "chr2" 5 3 3 ∅ =
  add_contact_to_list Sample.self "c1" "chr2" 5 "chr1" 10 3 3 ∅.
Proof.
  assert ("chr1" ∈ _chromosome_list Sample.self) as H1 by (simpl; left).
  assert ("chr2" ∈ _chromosome_list Sample.self) as H2 by (simpl; right; left).
  split_and!; [exact H1|exact H2|].
  refine (proj1 (proj1 (@canonical_pair_symmetric sample_runtime
            Sample.self "c1" "chr1" 10 "chr2" 5 3 3 3 ∅ H1 H2) _)).
  discriminate.
Defined.

Lemma unrecognised_chromosome_excluded_witness :
  ("chrX" ∉ _chromosome_list Sample.self ∨ "chr1" ∉ _chromosome_list Sample.self) ∧
  add_contact_to_list Sample.self "c1" "chrX" 1 "chr1" 3 2 2 ∅ = ∅.
Proof.
  assert ("chrX" ∉ _chromosome_list Sample.self ∨
          "chr1" ∉ _chromosome_list Sample.self) as H.
  { left. apply (bool_decide_unpack _). vm_compute. exact I. }
  split; [exact H|].
  exact (proj1 (@unrecognised_chromosome_excluded sample_runtime
                  Sample.self "c1" "chrX" 1 "chr1" 3 2 2 ∅ H)).
Defined.

Lemma written_files_not_empty_witness :
  sample_hsv = (sample_hsv.1, sample_hsv.2) ∧
  ∀ name content, contact_files sample_hsv.2 !! name = Some content →
    ∃ key lines, name = file_name key ∧
                 contact_lists sample_hsv.2 !! key = Some lines ∧
                 lines ≠ [] ∧ Forall is_line lines ∧
                 content = String.concat newline lines ∧ content ≠ EmptyString.
Proof.
  assert (sample_hsv = (sample_hsv.1, sample_hsv.2)) as H by reflexivity.
  split; [exact H|].
  exact (proj1 (proj2 (@written_files_not_empty sample_runtime
                         Sample.self Sample.w "spritevisu" _ _ H))).
Defined.

(** Three reads of chromosome [chr1], two of them at position 10. *)
Lemma duplicate_positions_collapse_witness :
  fold_m (process_read Sample.self "c1") [] Cases.repeated_reads initial_state =
    (Ok [("chr1", [10; 10; 30])],
     (fold_m (process_read Sample.self "c1") [] Cases.repeated_reads
        initial_state).2) ∧
  length (filter (λ x, x = 10)
            (set_iter (bins_get "chr1" [("chr1", [10; 10; 30])]))) = 1%nat.
Proof.
  assert (fold_m (process_read Sample.self "c1") [] Cases.repeated_reads
            initial_state =
            (Ok [("chr1", [10; 10; 30])],
             (fold_m (process_read Sample.self "c1") [] Cases.repeated_reads
                initial_state).2)) as Hbins by (vm_compute; reflexivity).
  split; [exact Hbins|].
  refine (proj1 (proj2 (proj2 (@duplicate_positions_collapse sample_runtime
            sample_runtime_laws Sample.self "c1" Cases.repeated_reads _
            initial_state _ Hbins)))
            "readB_chr1:10-30" "chr1" 10 (Row4 "chr1" "10" "30" "c1") _ _).
  - right. left.
  - vm_compute. reflexivity.
Defined.

Lemma rows_count_bounded_clusters_witness :
  _start_only Sample.self = false ∧
  file_lines Sample.w (_cluster_file Sample.self) = Some Sample.lines ∧
  sample_hsv = (Ok tt, sample_hsv.2) ∧
  length (db_rows sample_hsv.2) = 3%nat.
Proof.
  assert (sample_hsv = (Ok tt, sample_hsv.2)) as H by (vm_compute; reflexivity).
  split_and!; [reflexivity|reflexivity|exact H|].
  exact (proj1 (@rows_count_bounded_clusters sample_runtime
                  Sample.self Sample.w "spritevisu" Sample.lines _
                  eq_refl eq_refl H)).
Defined.

Lemma malformed_read_aborts_witness :
  file_lines Sample.broken_w (_cluster_file Sample.self) = Some Sample.broken_lines ∧
  ["c2"; "readD_chr1:7-9"; "chr2:5-15"] ∈ Sample.broken_lines ∧
  in_bounds Sample.self (Z.of_nat (length ["readD_chr1:7-9"; "chr2:5-15"])) = true ∧
  "chr2:5-15" ∈ ["readD_chr1:7-9"; "chr2:5-15"] ∧
  malformed Sample.self "chr2:5-15" ∧
  broken_hsv = (broken_hsv.1, broken_hsv.2) ∧
  (∃ e, broken_hsv.1 = Raise e) ∧ contact_files broken_hsv.2 = ∅.
Proof.
  assert (["c2"; "readD_chr1:7-9"; "chr2:5-15"] ∈ Sample.broken_lines) as Hin
    by (right; left).
  assert ("chr2:5-15" ∈ ["readD_chr1:7-9"; "chr2:5-15"]) as Hread by (right; left).
  assert (malformed Sample.self "chr2:5-15") as Hbad by (left; reflexivity).
  assert (broken_hsv = (broken_hsv.1, broken_hsv.2)) as H by reflexivity.
  split_and!; [reflexivity|exact Hin|reflexivity|exact Hread|exact Hbad|exact H|..].
  - exact (proj1 (@malformed_read_aborts sample_runtime Sample.self
                    Sample.broken_w "spritevisu" Sample.broken_lines "c2" _ _ _ _
                    eq_refl Hin eq_refl Hread Hbad H)).
  - exact (proj1 (proj2 (@malformed_read_aborts sample_runtime Sample.self
                    Sample.broken_w "spritevisu" Sample.broken_lines "c2" _ _ _ _
                    eq_refl Hin eq_refl Hread Hbad H))).
Defined.

(** The first cluster of the sample: [chr1] has the two positions 10 and
    30, [chr2] the position 5. *)
Lemma intrachromosomal_contacts_witness :
  in_bounds Sample.self (Z.of_nat (length Sample.reads)) = true ∧
  ("chr1", [10; 30]) ∈ [("chr1", [10; 30]); ("chr2", [5])] ∧
  2 ≤ set_len [10; 30] ∧
  "chr1" ∈ _chromosome_list Sample.self ∧
  Z.of_nat (length (filter (λ c, c_chrom1 c = "chr1")
                      (intra_contacts 3 [("chr1", [10; 30]); ("chr2", [5])])))
    = 2 * (2 - 1) / 2.
Proof.
  assert (fold_m (process_read Sample.self "c1") [] Sample.reads initial_state =
            (Ok [("chr1", [10; 30]); ("chr2", [5])],
             (fold_m (process_read Sample.self "c1") [] Sample.reads initial_state).2))
    as Hbins by (vm_compute; reflexivity).
  assert (("chr1", [10; 30]) ∈ [("chr1", [10; 30]); ("chr2", [5])]) as Hin by left.
  assert (2 ≤ set_len [10; 30]) as Hk by (vm_compute; discriminate).
  assert ("chr1" ∈ _chromosome_list Sample.self) as Hc by (simpl; left).
  split_and!; [reflexivity|exact Hin|exact Hk|exact Hc|].
  exact (proj1 (proj2 (proj2 (@intrachromosomal_contacts sample_runtime
           sample_runtime_laws Sample.self "c1" Sample.reads _ initial_state _
           "chr1" [10; 30] eq_refl Hbins Hin Hk Hc)))).
Defined.

Lemma interchromosomal_contacts_witness :
  in_bounds Sample.self (Z.of_nat (length Sample.reads)) = true ∧
  "chr1" ∈ _chromosome_list Sample.self ∧ "chr2" ∈ _chromosome_list Sample.self ∧
  Z.of_nat (length (filter (λ c, c_chrom1 c = "chr1" ∧ c_chrom2 c = "chr2")
                      (inter_contacts 3 [("chr1", [10; 30]); ("chr2", [5])])))
    = 2 * 1.
Proof.
  assert (fold_m (process_read Sample.self "c1") [] Sample.reads initial_state =
            (Ok [("chr1", [10; 30]); ("chr2", [5])],
             (fold_m (process_read Sample.self "c1") [] Sample.reads initial_state).2))
    as Hbins by (vm_compute; reflexivity).
  assert ("chr1" ∈ _chromosome_list Sample.self) as H1 by (simpl; left).
  assert ("chr2" ∈ _chromosome_list Sample.self) as H2 by (simpl; right; left).
  split_and!; [reflexivity|exact H1|exact H2|].
  refine (proj1 (proj2 (proj2 (proj2 (@interchromosomal_contacts sample_runtime
           sample_runtime_laws Sample.self "c1" Sample.reads _ initial_state _
           0%nat 1%nat "chr1" [10; 30] "chr2" [5] eq_refl Hbins eq_refl eq_refl _
           H1 H2))))).
  lia.
Defined.

(** ** Where the specification and the program part *)

(** C1 as stated fails. The sample run is in full mode and completes; its
    cluster file holds four reads, one of them in a cluster of one read,
    below the minimum 2; three rows are inserted. *)
Lemma rows_count_all_reads_counterexample :
  _start_only Sample.self = false ∧
  sample_hsv.1 = Ok tt ∧
  all_reads Sample.lines = 4%nat ∧
  length (db_rows sample_hsv.2) = 3%nat ∧
  length (db_rows sample_hsv.2) ≠ all_reads Sample.lines.
Proof. vm_compute. split_and!; try reflexivity. discriminate. Qed.

(** C2 as stated fails. A cluster of two reads on [chrX], which the
    registry does not hold: the bin of [chrX] has [k = 2] positions, and
    the store gains no line where [k*(k-1)/2 = 1] is claimed. *)
Lemma intrachromosomal_contacts_counterexample :
  in_bounds Sample.self (Z.of_nat (length Sample.foreign_reads)) = true ∧
  (fold_m (process_read Sample.self "c1") [] Sample.foreign_reads initial_state).1
    = Ok [("chrX", [1; 3])] ∧
  set_len [1; 3] = 2 ∧
  (process_line Sample.self ("c1" :: Sample.foreign_reads) initial_state).1 = Ok tt ∧
  stored_lines (contact_lists
    (process_line Sample.self ("c1" :: Sample.foreign_reads) initial_state).2) = [] ∧
  Z.of_nat (length (stored_lines (contact_lists
    (process_line Sample.self ("c1" :: Sample.foreign_reads) initial_state).2)))
    ≠ 2 * (2 - 1) / 2.
Proof. vm_compute. split_and!; try reflexivity. discriminate. Qed.

(** C3 as stated fails. A cluster with one read on [chrX], which the
    registry does not hold, and one on [chr1]: [m = n = 1], and the store
    gains no line where [m*n = 1] is claimed. *)
Lemma interchromosomal_contacts_counterexample :
  in_bounds Sample.self (Z.of_nat (length Sample.mixed_reads)) = true ∧
  (fold_m (process_read Sample.self "c1") [] Sample.mixed_reads initial_state).1
    = Ok [("chrX", [1]); ("chr1", [3])] ∧
  set_len [1] * set_len [3] = 1 ∧
  (process_line Sample.self ("c1" :: Sample.mixed_reads) initial_state).1 = Ok tt ∧
  stored_lines (contact_lists
    (process_line Sample.self ("c1" :: Sample.mixed_reads) initial_state).2) = [] ∧
  Z.of_nat (length (stored_lines (contact_lists
    (process_line Sample.self ("c1" :: Sample.mixed_reads) initial_state).2)))
    ≠ 1 * 1.
Proof. vm_compute. split_and!; try reflexivity. discriminate. Qed.

(** C5 as stated fails for [A = B]. The two calls for [chr1] at 10 and 30
    append different lines under the key [chr1-chr1]. *)
Lemma canonical_pair_symmetric_counterexample :
  "chr1" ∈ _chromosome_list Sample.self ∧
  add_contact_to_list Sample.self "c1" "chr1" 10 "chr1" 30 2 2 ∅ !! "chr1-chr1"
    = Some ["10,30,2"] ∧
  add_contact_to_list Sample.self "c1" "chr1" 30 "chr1" 10 2 2 ∅ !! "chr1-chr1"
    = Some ["30,10,2"] ∧
  add_contact_to_list Sample.self "c1" "chr1" 10 "chr1" 30 2 2 ∅
    ≠ add_contact_to_list Sample.self "c1" "chr1" 30 "chr1" 10 2 2 ∅.
Proof.
  split_and!; [simpl; left|vm_compute; reflexivity..|].
  intros Heq. apply (f_equal (λ cl, cl !! "chr1-chr1")) in Heq.
  vm_compute in Heq. discriminate.
Qed.


(** * The further properties at the sample inputs *)

(** [int_decimal] reads back what [pretty] prints. *)
Lemma digit_value_char d :
  (d < 10)%N → digit_value (pretty_N_char d) = Some (Z.of_N d).
Proof.
  intros Hd.
  assert (d = 0 ∨ d = 1 ∨ d = 2 ∨ d = 3 ∨ d = 4 ∨ d = 5 ∨ d = 6 ∨ d = 7
          ∨ d = 8 ∨ d = 9)%N as Hcases by lia.
  repeat destruct Hcases as [-> | Hcases]; try subst d; reflexivity.
Qed.

Lemma digits_pretty_go x acc b s :
  (0 < x)%N →
  ∃ k, digits acc b (pretty_N_go x s) = digits (acc * k + Z.of_N x) true s.
Proof.
  revert acc b s. induction (N.lt_wf_0 x) as [x _ IH]; intros acc b s Hx.
  rewrite pretty_N_go_step by done.
  assert (x `mod` 10 < 10)%N as Hd by (apply N.mod_lt; lia).
  pose proof (N.div_mod x 10 ltac:(lia)) as Hx10.
  destruct (decide (x `div` 10 = 0)%N) as [Hq|Hq].
  - rewrite Hq, pretty_N_go_0. cbn [digits]. rewrite digit_value_char by done.
    exists 10. f_equal. lia.
  - destruct (IH (x `div` 10)%N ltac:(apply N.div_lt; lia) acc b
                (String (pretty_N_char (x `mod` 10)) s) ltac:(lia)) as [k ->].
    cbn [digits]. rewrite digit_value_char by done.
    exists (10 * k). f_equal. lia.
Qed.

Lemma int_decimal_digits s :
  has_char "-" s = false → has_char "+" s = false →
  int_decimal s = digits 0 false s.
Proof.
  destruct s as [|a s]; [done|]. cbn [has_char int_decimal].
  intros [-> _]%orb_false_iff [-> _]%orb_false_iff. done.
Qed.

Lemma int_decimal_pretty_N (x : N) :
  (0 < x)%N → int_decimal (pretty_N_go x EmptyString) = Some (Z.of_N x).
Proof.
  intros Hx. rewrite int_decimal_digits.
  - destruct (digits_pretty_go x 0 false EmptyString Hx) as [k ->]. simpl.
    f_equal.
  - rewrite pretty_N_go_chars; [done|].
    apply not_digit_char. left. vm_compute. repeat constructor.
  - rewrite pretty_N_go_chars; [done|].
    apply not_digit_char. left. vm_compute. repeat constructor.
Qed.

Lemma int_decimal_pretty (z : Z) : int_decimal (pretty z) = Some z.
Proof.
  destruct z as [|p|p].
  - reflexivity.
  - apply (int_decimal_pretty_N (N.pos p)). lia.
  - change (pretty (Z.neg p)) with (String "-" (pretty_N_go (N.pos p) EmptyString)).
    cbn [int_decimal]. rewrite Ascii.eqb_refl.
    pose proof (int_decimal_pretty_N (N.pos p) ltac:(lia)) as H.
    rewrite int_decimal_digits in H.
    + by rewrite H.
    + rewrite pretty_N_go_chars; [done|].
      apply not_digit_char. left. vm_compute. repeat constructor.
    + rewrite pretty_N_go_chars; [done|].
      apply not_digit_char. left. vm_compute. repeat constructor.
Qed.


Lemma metadata_written_verbatim_witness :
  file_text Sample.w (genomic_size Sample.args) = Some EmptyString ∧
  json_load EmptyString = Some (JObj Cases.members) ∧
  dict_get "chromosomes" Cases.members = Some (JObj Cases.chroms) ∧
  sample_run = (sample_run.1, sample_run.2) ∧
  meta_json sample_run.2 = Some (JObj Cases.members).
Proof.
  assert (sample_run = (sample_run.1, sample_run.2)) as H by reflexivity.
  split_and!; [reflexivity|reflexivity|reflexivity|exact H|].
  exact (proj1 (@metadata_written_verbatim sample_runtime Sample.w Sample.args
                  EmptyString Cases.members Cases.chroms _ _
                  eq_refl eq_refl eq_refl H)).
Defined.

Lemma registry_is_key_set_witness :
  file_text Sample.w "sizes.json" = Some EmptyString ∧
  json_load EmptyString = Some (JObj Cases.members) ∧
  dict_get "chromosomes" Cases.members = Some (JObj Cases.chroms) ∧
  ∃ self,
    SpriteVisu_init Sample.w "clusters.txt" "sizes.json" 10 2 false = Ok self ∧
    _max_cluster_size self = 10.
Proof.
  split_and!; [reflexivity|reflexivity|reflexivity|].
  destruct (@registry_is_key_set sample_runtime Sample.w "clusters.txt" "sizes.json"
              10 2 false EmptyString Cases.members Cases.chroms
              eq_refl eq_refl eq_refl) as (self & Hinit & Hmax & _).
  exists self. split; [exact Hinit|exact Hmax].
Defined.

Lemma no_cluster_within_bounds_witness :
  file_lines Cases.small_w (_cluster_file Sample.self) = Some Cases.small_lines ∧
  Forall (λ line, line ≠ [] ∧
            in_bounds Sample.self (Z.of_nat (length (reads_of line))) = false)
    Cases.small_lines ∧
  ∃ s, generate_hsv Sample.self Cases.small_w "spritevisu" initial_state = (Ok tt, s) ∧
       db_rows s = [] ∧ contact_lists s = ∅ ∧ contact_files s = ∅ ∧
       db_committed s = true.
Proof.
  assert (Forall (λ line, line ≠ [] ∧
            in_bounds Sample.self (Z.of_nat (length (reads_of line))) = false)
            Cases.small_lines) as Hall.
  { repeat constructor. discriminate. }
  split_and!; [reflexivity|exact Hall|].
  exact (@no_cluster_within_bounds sample_runtime Sample.self Cases.small_w
           "spritevisu" Cases.small_lines eq_refl Hall).
Defined.

Lemma rows_of_full_mode_witness :
  _start_only Sample.self = false ∧
  file_lines Sample.w (_cluster_file Sample.self) = Some Sample.lines ∧
  sample_hsv = (Ok tt, sample_hsv.2) ∧
  Row4 "chr1" "10" "20" "c1" ∈ db_rows sample_hsv.2.
Proof.
  assert (sample_hsv = (Ok tt, sample_hsv.2)) as H by (vm_compute; reflexivity).
  split_and!; [reflexivity|reflexivity|exact H|].
  apply (@rows_of_full_mode sample_runtime Sample.self Sample.w "spritevisu"
           Sample.lines _ "chr1" "10" "20" "c1" eq_refl eq_refl H).
  exists Sample.reads, "readA_chr1:10-20".
  split_and!; [left|reflexivity|left|reflexivity].
Defined.

Lemma rows_of_start_only_mode_witness :
  _start_only Cases.self_start_only = true ∧
  file_lines Cases.start_only_w (_cluster_file Cases.self_start_only)
    = Some Cases.start_only_lines ∧
  Cases.start_only_hsv = (Ok tt, Cases.start_only_hsv.2) ∧
  db_file Cases.start_only_hsv.2 = Some "cluster_id_reads-startonly.db" ∧
  length (db_rows Cases.start_only_hsv.2) = 3%nat.
Proof.
  assert (Cases.start_only_hsv = (Ok tt, Cases.start_only_hsv.2)) as H
    by (vm_compute; reflexivity).
  split_and!; [reflexivity|reflexivity|exact H|..].
  - exact (proj1 (@rows_of_start_only_mode sample_runtime Cases.self_start_only
                    Cases.start_only_w "spritevisu" Cases.start_only_lines _
                    eq_refl eq_refl H)).
  - exact (proj1 (proj2 (@rows_of_start_only_mode sample_runtime
                    Cases.self_start_only Cases.start_only_w "spritevisu"
                    Cases.start_only_lines _ eq_refl eq_refl H))).
Defined.

Lemma bins_group_reads_witness :
  fold_m (process_read Sample.self "c1") [] Sample.reads initial_state =
    (Ok [("chr1", [10; 30]); ("chr2", [5])],
     (fold_m (process_read Sample.self "c1") [] Sample.reads initial_state).2) ∧
  NoDup (fst <$> [("chr1", [10; 30]); ("chr2", [5 : Z])]).
Proof.
  assert (fold_m (process_read Sample.self "c1") [] Sample.reads initial_state =
            (Ok [("chr1", [10; 30]); ("chr2", [5])],
             (fold_m (process_read Sample.self "c1") [] Sample.reads initial_state).2))
    as Hbins by (vm_compute; reflexivity).
  split; [exact Hbins|].
  exact (proj1 (@bins_group_reads sample_runtime sample_runtime_laws Sample.self
                  "c1" Sample.reads _ initial_state _ Hbins)).
Defined.


Lemma weights_within_bounds_witness :
  sample_hsv = (sample_hsv.1, sample_hsv.2) ∧
  contact_lists sample_hsv.2 !! "chr1-chr2" = Some ["10,5,3"; "30,5,3"] ∧
  "30,5,3" ∈ ["10,5,3"; "30,5,3"] ∧
  ∃ start1 start2 inc2 : Z,
    "30,5,3" = contact_line start1 start2 inc2 ∧
    2 ≤ inc2 ≤ _max_cluster_size Sample.self.
Proof.
  assert (sample_hsv = (sample_hsv.1, sample_hsv.2)) as H by reflexivity.
  assert (contact_lists sample_hsv.2 !! "chr1-chr2" = Some ["10,5,3"; "30,5,3"])
    as Hk by (vm_compute; reflexivity).
  assert ("30,5,3" ∈ ["10,5,3"; "30,5,3"]) as Hl by (right; left).
  split_and!; [exact H|exact Hk|exact Hl|].
  exact (@weights_within_bounds sample_runtime sample_runtime_laws Sample.self
           Sample.w "spritevisu" _ _ "chr1-chr2" _ "30,5,3" H Hk Hl).
Defined.

Lemma cluster_contact_count_witness :
  in_bounds Sample.self (Z.of_nat (length Sample.reads)) = true ∧
  fold_m (process_read Sample.self "c1") [] Sample.reads initial_state =
    (Ok [("chr1", [10; 30]); ("chr2", [5])],
     (fold_m (process_read Sample.self "c1") [] Sample.reads initial_state).2) ∧
  Z.of_nat (length (cluster_contacts 3 [("chr1", [10; 30]); ("chr2", [5])]))
    = 3 * (3 - 1) / 2.
Proof.
  assert (fold_m (process_read Sample.self "c1") [] Sample.reads initial_state =
            (Ok [("chr1", [10; 30]); ("chr2", [5])],
             (fold_m (process_read Sample.self "c1") [] Sample.reads initial_state).2))
    as Hbins by (vm_compute; reflexivity).
  split_and!; [reflexivity|exact Hbins|].
  exact (proj1 (@cluster_contact_count sample_runtime
                  Sample.self "c1" Sample.reads _ initial_state _ eq_refl Hbins)).
Defined.

Lemma converter_line_accepted_witness :
  (∀ z : Z, py_int (pretty z) = Some z) ∧
  _start_only Cases.self_start_only = true ∧
  Forall (λ read, ∃ coord, parse_genomic_coord (Some coord) = Some read)
    Cases.converted ∧
  ∃ s', process_line Cases.self_start_only ("c1" :: Cases.converted) initial_state
        = (Ok tt, s').
Proof.
  assert (Forall (λ read, ∃ coord, parse_genomic_coord (Some coord) = Some read)
            Cases.converted) as Hall.
  { repeat constructor.
    - exists Cases.coordinate. vm_compute. reflexivity.
    - exists "chr2:5-10". vm_compute. reflexivity. }
  split_and!; [exact int_decimal_pretty|reflexivity|exact Hall|].
  exact (proj1 (proj2 (@converter_line_accepted sample_runtime Cases.self_start_only
                         "c1" Cases.converted initial_state
                         int_decimal_pretty eq_refl Hall))).
Defined.
